(** * TypeScript practice problems ([src/probles.ts]): a shallow embedding

    The eight practice functions are embedded as Rocq functions over a
    model of the JavaScript values they manipulate:

    - a [number] is an IEEE 754 binary64 value, taken from the standard
      library's executable specification of floating point ([SpecFloat]);
    - a string is its sequence of UTF-16 code units;
    - an abrupt completion ([throw]) is an explicit [Throw] result;
    - promises, timers and jobs live in an explicit [World].

    Case conversion and the printing of numbers follow large tables of the
    language; the part of each that is computed here is stated where it is
    defined, and the rest is a parameter. *)

From Stdlib Require Import ZArith NArith Lia String Ascii DecimalString.
From Stdlib Require Import Floats.SpecFloat.
From stdpp Require Import base list.

Local Open Scope Z_scope.

(** ** Numbers *)

Module Number.

Definition prec : Z := 53.
Definition emax : Z := 1024.

Definition number : Type := spec_float.

(** The number denoted by an integer literal of the source text. *)
Definition of_Z (z : Z) : number := binary_normalize prec emax z 0 false.

Definition NaN : number := S754_nan.

Definition mul (x y : number) : number := SFmul prec emax x y.

(** Relational operators: each is [false] as soon as an operand is NaN. *)
Definition lt (x y : number) : bool := SFltb x y.
Definition gt (x y : number) : bool := SFltb y x.
Definition le (x y : number) : bool := SFleb x y.
Definition ge (x y : number) : bool := SFleb y x.

Definition is_nan (x : number) : bool :=
  match x with S754_nan => true | _ => false end.

(** A number that can be ordered against any other one. *)
Definition comparable (x : number) : Prop := is_nan x = false.

(** The integer a number denotes, when it denotes one. *)
Definition to_Z (x : number) : option Z :=
  match x with
  | S754_zero _ => Some 0
  | S754_finite s m (Zneg k) =>
      let d := Z.pow_pos 2 k in
      if Z.pos m mod d =? 0 then Some (cond_Zopp s (Z.pos m / d)) else None
  | S754_finite s m e => Some (cond_Zopp s (Z.pos m * 2 ^ e))
  | _ => None
  end.

End Number.
Export Number(number).

(** ** Strings *)

(** A string value is a finite sequence of 16-bit code units. *)
Definition jsstring : Type := list N.

(** The string value of an ASCII literal of the source text. *)
Definition js (s : string) : jsstring :=
  map N_of_ascii (list_ascii_of_string s).

(** [value.length] *)
Definition String_length (s : jsstring) : number :=
  Number.of_Z (Z.of_nat (length s)).

(** ** Completions *)

Inductive Exn : Type :=
  | Error (message : jsstring)
  | TypeError.

Inductive Completion (A : Type) : Type :=
  | Normal (a : A)
  | Throw (e : Exn).
Arguments Normal {A} a.
Arguments Throw {A} e.

#[global] Instance Completion_ret : MRet Completion := @Normal.

#[global] Instance Completion_bind : MBind Completion :=
  fun A B k c =>
    match c with
    | Normal a => k a
    | Throw e => Throw e
    end.

(** ** Problem 1: formatString *)

Definition is_ascii (s : jsstring) : bool :=
  forallb (fun c => (c <? 128)%N) s.

(** The upper case of [a]..[z] and the lower case of [A]..[Z]; any other
    ASCII character is its own upper and lower case. *)
Definition ascii_upper (c : N) : N :=
  if ((97 <=? c) && (c <=? 122))%N then (c - 32)%N else c.

Definition ascii_lower (c : N) : N :=
  if ((65 <=? c) && (c <=? 90))%N then (c + 32)%N else c.

Definition ascii_case (upper : bool) (c : N) : N :=
  if upper then ascii_upper c else ascii_lower c.

Section CaseMapping.

(** [toUpperCase] and [toLowerCase] apply the Unicode case mappings. On a
    string of ASCII characters these map each character on its own,
    computed here; the result on any other string is left to
    [unicode_upper] and [unicode_lower]. *)
Variables unicode_upper unicode_lower : jsstring -> jsstring.

Definition String_toUpperCase (s : jsstring) : jsstring :=
  if is_ascii s then map ascii_upper s else unicode_upper s.

Definition String_toLowerCase (s : jsstring) : jsstring :=
  if is_ascii s then map ascii_lower s else unicode_lower s.

(** [toUpper: boolean = true]: an argument that is left out takes the
    default. *)
Definition formatString (input : jsstring) (toUpper : option bool) : jsstring :=
  if default true toUpper
  then String_toUpperCase input
  else String_toLowerCase input.

End CaseMapping.

(** ** Problem 2: filterByRating *)

Record RatedItem : Type := mkRatedItem {
  title : jsstring;
  rating : number
}.

Definition filterByRating (items : list RatedItem) : list RatedItem :=
  List.filter (fun item => Number.ge (rating item) (Number.of_Z 4)) items.

(** The items the filter keeps. *)
Definition rated_high (item : RatedItem) : Prop :=
  Number.ge (rating item) (Number.of_Z 4) = true.

(** ** Problem 3: concatenateArrays *)

(** An array element is either a value that is not an array or an array of
    elements: [flat] inspects this at run time. Arrays are dense. *)
#[local] Set Warnings "-register-all".
Inductive Elem (T : Type) : Type :=
  | Atom (x : T)
  | Arr (xs : list (Elem T)).
Arguments Atom {T} x.
Arguments Arr {T} xs.

(** FlattenIntoArray of the language definition: an element that is an
    array is spliced in while [depth] is positive, one level less deep. *)
Fixpoint FlattenIntoArray {T} (depth : nat) (source : list (Elem T))
  : list (Elem T) :=
  (fix each (source : list (Elem T)) : list (Elem T) :=
     match source with
     | [] => []
     | element :: rest =>
         match depth, element with
         | S d, Arr xs => FlattenIntoArray d xs ++ each rest
         | _, _ => element :: each rest
         end
     end) source.

(** [arr.flat()]: the depth defaults to 1. *)
Definition Array_flat {T} (arr : list (Elem T)) : list (Elem T) :=
  FlattenIntoArray 1 arr.

(** The rest parameter [...arrays] gathers the argument arrays, in order,
    into one array. *)
Definition concatenateArrays {T} (arrays : list (list (Elem T)))
  : list (Elem T) :=
  Array_flat (map Arr arrays).

(** ** Problem 4: Vehicle and Car *)

Section VehicleHierarchy.

(** Number::toString prints the shortest decimal text that reads back as
    the same number. For an integer below 2^53 in magnitude that text is
    its decimal expansion, computed here; for every other finite number
    the digits are left to [shortest_digits]. *)
Variable shortest_digits : number -> jsstring.

Definition Number_toString (x : number) : jsstring :=
  match x with
  | S754_nan => js "NaN"
  | S754_zero _ => js "0"
  | S754_infinity s => (if s then js "-" else []) ++ js "Infinity"
  | S754_finite s _ _ =>
      match Number.to_Z x with
      | Some z =>
          if Z.abs z <? 2 ^ 53
          then js (NilZero.string_of_int (Z.to_int z))
          else (if s then js "-" else []) ++ shortest_digits (SFabs x)
      | None => (if s then js "-" else []) ++ shortest_digits (SFabs x)
      end
  end.

Record Vehicle : Type := mkVehicle {
  make : jsstring;
  year : number
}.

(** [constructor(make, year)] *)
Definition new_Vehicle (make : jsstring) (year : number) : Vehicle :=
  {| make := make; year := year |}.

Definition Vehicle_getInfo (this : Vehicle) : jsstring :=
  js "Make: " ++ make this ++ js ", Year: " ++ Number_toString (year this).

(** [class Car extends Vehicle]: a car holds the state of a vehicle and
    is accepted wherever a vehicle is. *)
Record Car : Type := mkCar {
  Car_super :> Vehicle;
  model : jsstring
}.

(** [constructor(make, year, model)], which starts with [super(make, year)] *)
Definition new_Car (make : jsstring) (year : number) (model : jsstring) : Car :=
  {| Car_super := new_Vehicle make year; model := model |}.

Definition Car_getModel (this : Car) : jsstring :=
  js "Model: " ++ model this.

(** [Car] declares no [getInfo] of its own: the call resolves to the
    method of [Vehicle], run on the car. *)
Definition Car_getInfo (this : Car) : jsstring := Vehicle_getInfo this.

End VehicleHierarchy.

(** ** Problem 5: processValue *)

(** Runtime values. The declared parameter type is [string | number]; the
    other primitive types are what an untyped caller can still pass. *)
Inductive Value : Type :=
  | VString (s : jsstring)
  | VNumber (n : number)
  | VBoolean (b : bool)
  | VNull
  | VUndefined
  | VBigInt (z : Z)
  | VSymbol (description : jsstring).

Inductive Typeof : Type :=
  | Tstring | Tnumber | Tboolean | Tobject | Tundefined | Tbigint | Tsymbol.

Definition typeof (v : Value) : Typeof :=
  match v with
  | VString _ => Tstring
  | VNumber _ => Tnumber
  | VBoolean _ => Tboolean
  | VNull => Tobject
  | VUndefined => Tundefined
  | VBigInt _ => Tbigint
  | VSymbol _ => Tsymbol
  end.

(** ToNumber on the primitives that [*] converts silently. *)
Definition Boolean_to_number (b : bool) : number :=
  Number.of_Z (if b then 1 else 0).
Definition Null_to_number : number := Number.of_Z 0.
Definition Undefined_to_number : number := Number.NaN.

(** [typeof value === "string" ? value.length : value * 2]. Every value
    whose [typeof] is not ["string"] takes the second branch, where [*]
    converts its left operand: a bigint cannot be mixed with the number 2
    and a symbol has no numeric conversion. *)
Definition processValue (value : Value) : Completion number :=
  match value with
  | VString s => Normal (String_length s)
  | VNumber n => Normal (Number.mul n (Number.of_Z 2))
  | VBoolean b => Normal (Number.mul (Boolean_to_number b) (Number.of_Z 2))
  | VNull => Normal (Number.mul Null_to_number (Number.of_Z 2))
  | VUndefined => Normal (Number.mul Undefined_to_number (Number.of_Z 2))
  | VBigInt _ => Throw TypeError
  | VSymbol _ => Throw TypeError
  end.

(** ** Problem 6: getMostExpensiveProduct *)

Record Product : Type := mkProduct {
  name : jsstring;
  price : number
}.

(** [arr.reduce(callbackfn)] without an initial value: the first element
    starts the accumulation, and an empty array is a TypeError. *)
Definition Array_reduce {A} (callbackfn : A -> A -> A) (arr : list A)
  : Completion A :=
  match arr with
  | [] => Throw TypeError
  | first :: rest => Normal (fold_left callbackfn rest first)
  end.

Definition getMostExpensiveProduct (products : list Product)
  : Completion (option Product) :=
  if (length products =? 0)%nat then Normal None
  else
    max ← Array_reduce
            (fun max item =>
               if Number.gt (price item) (price max) then item else max)
            products;
    Normal (Some max).

(** The reducer of [getMostExpensiveProduct]. *)
Definition dearer (max item : Product) : Product :=
  if Number.gt (price item) (price max) then item else max.

(** [p] is at index [i] of [products], no product costs more, and every
    product before index [i] costs less. *)
Definition first_dearest (products : list Product) (i : nat) (p : Product)
  : Prop :=
  products !! i = Some p ∧
  (∀ j q, products !! j = Some q → Number.le (price q) (price p) = true) ∧
  (∀ j q, products !! j = Some q → (j < i)%nat →
          Number.lt (price q) (price p) = true).

Definition priced (p : Product) : Prop := Number.comparable (price p).

(** ** Problem 7: Day and getDayType *)

Inductive Day : Type :=
  | Monday | Tuesday | Wednesday | Thursday | Friday | Saturday | Sunday.

(** The numeric value the enum gives each member. *)
Definition Day_value (d : Day) : Z :=
  match d with
  | Monday => 0
  | Tuesday => 1
  | Wednesday => 2
  | Thursday => 3
  | Friday => 4
  | Saturday => 5
  | Sunday => 6
  end.

Definition getDayType (day : Day) : jsstring :=
  if (Day_value day =? Day_value Saturday) || (Day_value day =? Day_value Sunday)
  then js "Weekend"
  else js "Weekday".

(** ** Problem 8: squareAsync *)

(** The part of the agent's state that an asynchronous function touches:
    a store of promises, the timers registered with [setTimeout], the job
    (microtask) queue and a clock in milliseconds. *)
Module Async.

(** A promise is named by its index in the store. *)
Abbreviation PromiseId := nat (only parsing).

Inductive PromiseState : Type :=
  | Pending
  | Fulfilled (value : number)
  | Rejected (reason : Exn).

(** [reactions] lists the promises that were resolved with this one and
    wait to be settled the way it will be. *)
Record Promise : Type := mkPromise {
  state : PromiseState;
  reactions : list PromiseId
}.

Inductive Job : Type :=
  | ThenableJob (target thenable : PromiseId)
      (* [thenable.then(resolve, reject)] for the functions of [target] *)
  | ReactionJob (target : PromiseId) (outcome : PromiseState).
      (* a reaction of a settled promise settles [target] *)

(** The one closure the source hands to [setTimeout]:
    [() => { resolve(n * n); }], for the [resolve] of promise [p]. *)
Inductive Callback : Type :=
  | ResolveSquare (p : PromiseId) (n : number).

Record Timer : Type := mkTimer {
  due : Z;
  callback : Callback
}.

Record World : Type := mkWorld {
  clock : Z;
  promises : list Promise;
  timers : list Timer;
  jobs : list Job
}.

Definition fresh (now : Z) : World :=
  {| clock := now; promises := []; timers := []; jobs := [] |}.

Definition set_clock (t : Z) (w : World) : World :=
  {| clock := t; promises := promises w; timers := timers w; jobs := jobs w |}.
Definition set_promises (ps : list Promise) (w : World) : World :=
  {| clock := clock w; promises := ps; timers := timers w; jobs := jobs w |}.
Definition set_timers (ts : list Timer) (w : World) : World :=
  {| clock := clock w; promises := promises w; timers := ts; jobs := jobs w |}.
Definition set_jobs (js : list Job) (w : World) : World :=
  {| clock := clock w; promises := promises w; timers := timers w; jobs := js |}.

Definition state_of (p : PromiseId) (w : World) : option PromiseState :=
  state <$> promises w !! p.

Definition new_promise (w : World) : PromiseId * World :=
  (length (promises w),
   set_promises (promises w ++ [mkPromise Pending []]) w).

Definition enqueue (j : Job) (w : World) : World :=
  set_jobs (jobs w ++ [j]) w.

(** [setTimeout(callback, delay)] *)
Definition setTimeout (cb : Callback) (delay : Z) (w : World) : World :=
  set_timers (timers w ++ [mkTimer (clock w + delay) cb]) w.

(** Fulfil or reject a pending promise and queue a job for each of its
    reactions; a promise that is already settled stays as it is. *)
Definition settle (p : PromiseId) (outcome : PromiseState) (w : World)
  : World :=
  match promises w !! p with
  | Some (mkPromise Pending rs) =>
      set_jobs (jobs w ++ map (fun t => ReactionJob t outcome) rs)
        (set_promises (<[p := mkPromise outcome []]> (promises w)) w)
  | _ => w
  end.

(** [p.then(resolve, reject)] for the resolving functions of [target]:
    a reaction is registered on a pending [p], and queued as a job when
    [p] is settled already. *)
Definition then_forward (p target : PromiseId) (w : World) : World :=
  match promises w !! p with
  | Some (mkPromise Pending rs) =>
      set_promises (<[p := mkPromise Pending (rs ++ [target])]> (promises w)) w
  | Some (mkPromise outcome _) => enqueue (ReactionJob target outcome) w
  | None => w
  end.

Definition run_job (j : Job) (w : World) : World :=
  match j with
  | ThenableJob target thenable => then_forward thenable target w
  | ReactionJob target outcome => settle target outcome w
  end.

(** Run queued jobs, oldest first, including the ones they queue. *)
Fixpoint drain (fuel : nat) (w : World) : World :=
  match fuel, jobs w with
  | S fuel', j :: rest => drain fuel' (run_job j (set_jobs rest w))
  | _, _ => w
  end.

(** A job either disappears or turns one registered reaction into a job
    (or the reverse, for a thenable job), so this many steps empty the
    queue. *)
Definition job_weight (j : Job) : nat :=
  match j with ThenableJob _ _ => 2%nat | ReactionJob _ _ => 1%nat end.

Definition budget (w : World) : nat :=
  (sum_list_with job_weight (jobs w)
   + sum_list_with (fun p => length (reactions p)) (promises w))%nat.

Definition run_jobs (w : World) : World := drain (budget w) w.

Definition fire (tm : Timer) (w : World) : World :=
  match callback tm with
  | ResolveSquare p n => settle p (Fulfilled (Number.mul n n)) w
  end.

(** The timer that expires first, the older one among equals, and the
    timers that remain. *)
Fixpoint pop_earliest (ts : list Timer) : option (Timer * list Timer) :=
  match ts with
  | [] => None
  | tm :: rest =>
      match pop_earliest rest with
      | Some (tm', rest') =>
          if due tm' <? due tm then Some (tm', tm :: rest')
          else Some (tm, rest)
      | None => Some (tm, rest)
      end
  end.

(** Expire the timers due by time [t], each at its time and followed by
    the jobs it queues. Callbacks register no timer, so one round per
    timer is enough. *)
Fixpoint expire (rounds : nat) (t : Z) (w : World) : World :=
  match rounds with
  | O => w
  | S rounds' =>
      match pop_earliest (timers w) with
      | Some (tm, rest) =>
          if due tm <=? t then
            expire rounds' t
              (run_jobs
                 (fire tm
                    (set_timers rest
                       (set_clock (Z.max (clock w) (due tm)) w))))
          else w
      | None => w
      end
  end.

(** The state once the event loop has run up to time [t]. *)
Definition advance (t : Z) (w : World) : World :=
  let w1 := run_jobs w in
  let w2 := expire (length (timers w1)) t w1 in
  set_clock (Z.max (clock w2) t) w2.

(** Calling an [async function]: its body runs at once; a [throw] rejects
    the promise of the call, and a returned promise resolves it, which
    takes a job. The call itself always completes normally. *)
Definition async_call (body : World -> Completion PromiseId * World)
    (w : World) : Completion PromiseId * World :=
  let (p, w0) := new_promise w in
  match body w0 with
  | (Normal inner, w1) => (Normal p, enqueue (ThenableJob p inner) w1)
  | (Throw e, w1) => (Normal p, settle p (Rejected e) w1)
  end.

Definition squareAsync_body (n : number) (w : World)
  : Completion PromiseId * World :=
  if Number.lt n (Number.of_Z 0) then
    (Throw (Error (js "Negative number not allowed")), w)
  else
    (* [new Promise(executor)] runs the executor before it returns *)
    let (p, w1) := new_promise w in
    (Normal p, setTimeout (ResolveSquare p n) 1000 w1).

Definition squareAsync (n : number) (w : World)
  : Completion PromiseId * World :=
  async_call (squareAsync_body n) w.

(** *** Invariants of a call in progress

    A call of [squareAsync n] made when the store held [b] promises owns
    promise [b] (the one it returns) and promise [b + 1] (the one its body
    creates). Everything that was there before the call refers to
    promises below [b] only. *)

Definition older_job (b : nat) (j : Job) : Prop :=
  match j with
  | ThenableJob target thenable => (target < b)%nat ∧ (thenable < b)%nat
  | ReactionJob target _ => (target < b)%nat
  end.

Definition older_timer (b : nat) (tm : Timer) : Prop :=
  match callback tm with ResolveSquare p _ => (p < b)%nat end.

Definition older_promises (b : nat) (ps : list Promise) : Prop :=
  ∀ i pr, (i < b)%nat → ps !! i = Some pr →
          Forall (fun t => (t < b)%nat) (reactions pr).

(** What a step of older work does to a world: promises below [b] change,
    jobs of older work are queued. *)
Definition older_effect (b : nat) (x y : World) : Prop :=
  ∃ ps' js',
    y = set_jobs (jobs x ++ js') (set_promises ps' x) ∧
    length ps' = length (promises x) ∧
    older_promises b ps' ∧
    (∀ i, (b ≤ i)%nat → ps' !! i = promises x !! i) ∧
    Forall (older_job b) js'.

(** A world whose jobs, timers and reactions refer to existing promises. *)
Record well_formed (w : World) : Prop := mk_well_formed {
  wf_promises : older_promises (length (promises w)) (promises w);
  wf_jobs : Forall (older_job (length (promises w))) (jobs w);
  wf_timers : Forall (older_timer (length (promises w))) (timers w)
}.

Definition the_job (b : nat) : Job := ThenableJob b (S b).
Definition the_value (n : number) : PromiseState :=
  Fulfilled (Number.mul n n).
Definition the_reaction (b : nat) (n : number) : Job :=
  ReactionJob b (the_value n).
Definition the_timer (b : nat) (n : number) (d : Z) : Timer :=
  mkTimer d (ResolveSquare (S b) n).

(** Before the timer of the call expires: both promises are pending. *)
Record Waiting (b : nat) (n : number) (d : Z) (x : World) : Prop := mk_Waiting {
  waiting_length : length (promises x) = S (S b);
  waiting_older : older_promises b (promises x);
  waiting_outer : promises x !! b = Some (mkPromise Pending []);
  waiting_inner : ∃ rs, promises x !! S b = Some (mkPromise Pending rs) ∧
                        Forall (eq b) rs ∧
                        (rs = [] → the_job b ∈ jobs x);
  waiting_jobs : Forall (fun j => older_job b j ∨ j = the_job b) (jobs x);
  waiting_timers :
    Forall (fun tm => older_timer b tm ∨ tm = the_timer b n d) (timers x);
  waiting_timer : the_timer b n d ∈ timers x
}.

(** After it has expired: the inner promise is fulfilled, and the outer
    one is fulfilled too or about to be. *)
Record Fired (b : nat) (n : number) (d : Z) (x : World) : Prop := mk_Fired {
  fired_length : length (promises x) = S (S b);
  fired_older : older_promises b (promises x);
  fired_inner : promises x !! S b = Some (mkPromise (the_value n) []);
  fired_outer :
    promises x !! b = Some (mkPromise (the_value n) []) ∨
    (promises x !! b = Some (mkPromise Pending []) ∧
     the_reaction b n ∈ jobs x);
  fired_jobs :
    Forall (fun j => older_job b j ∨ j = the_job b ∨ j = the_reaction b n)
      (jobs x);
  fired_timers :
    Forall (fun tm => older_timer b tm ∨ tm = the_timer b n d) (timers x)
}.

(** The worlds a program that only calls [squareAsync] can be in. *)
Inductive reachable : World → Prop :=
  | reachable_fresh (now : Z) : reachable (fresh now)
  | reachable_call (n : number) (w : World) :
      reachable w → reachable (snd (squareAsync n w))
  | reachable_advance (t : Z) (w : World) :
      reachable w → reachable (advance t w).

(** *** A call among later calls

    The same invariants for a store that keeps growing: what does not
    belong to the call that owns promises [b] and [b + 1] refers to other
    promises, older or younger. *)

Definition away (b : nat) (i : nat) : Prop := i ≠ b ∧ i ≠ S b.

Definition other_job (b : nat) (j : Job) : Prop :=
  match j with
  | ThenableJob target thenable => away b target ∧ away b thenable
  | ReactionJob target _ => away b target
  end.

Definition other_timer (b : nat) (tm : Timer) : Prop :=
  match callback tm with ResolveSquare p _ => away b p end.

Definition other_promises (b : nat) (ps : list Promise) : Prop :=
  ∀ i pr, away b i → ps !! i = Some pr → Forall (away b) (reactions pr).

Definition other_effect (b : nat) (x y : World) : Prop :=
  ∃ ps' js',
    y = set_jobs (jobs x ++ js') (set_promises ps' x) ∧
    length ps' = length (promises x) ∧
    other_promises b ps' ∧
    ps' !! b = promises x !! b ∧
    ps' !! S b = promises x !! S b ∧
    Forall (other_job b) js'.

Record Awaiting (b : nat) (n : number) (d : Z) (x : World) : Prop := mk_Awaiting {
  awaiting_others : other_promises b (promises x);
  awaiting_outer : promises x !! b = Some (mkPromise Pending []);
  awaiting_inner : ∃ rs, promises x !! S b = Some (mkPromise Pending rs) ∧
                         Forall (eq b) rs ∧
                         (rs = [] → the_job b ∈ jobs x);
  awaiting_jobs : Forall (fun j => other_job b j ∨ j = the_job b) (jobs x);
  awaiting_timers :
    Forall (fun tm => other_timer b tm ∨ tm = the_timer b n d) (timers x);
  awaiting_timer : the_timer b n d ∈ timers x
}.

Record Expired (b : nat) (n : number) (d : Z) (x : World) : Prop := mk_Expired {
  expired_others : other_promises b (promises x);
  expired_inner : promises x !! S b = Some (mkPromise (the_value n) []);
  expired_outer :
    promises x !! b = Some (mkPromise (the_value n) []) ∨
    (promises x !! b = Some (mkPromise Pending []) ∧
     the_reaction b n ∈ jobs x);
  expired_jobs :
    Forall (fun j => other_job b j ∨ j = the_job b ∨ j = the_reaction b n)
      (jobs x);
  expired_timers :
    Forall (fun tm => other_timer b tm ∨ tm = the_timer b n d) (timers x)
}.

(** What the caller of [squareAsync n] can observe of its promise [b]:
    pending while the clock is before [d], fulfilled from [d] on. *)
Definition Tracked (b : nat) (n : number) (d : Z) (x : World) : Prop :=
  (clock x < d ∧ Awaiting b n d x) ∨
  (d ≤ clock x ∧ state_of b x = Some (the_value n)).

(** The worlds that follow [w0] when the program goes on calling
    [squareAsync] and time goes on passing. *)
Inductive continues (w0 : World) : World → Prop :=
  | continues_here : continues w0 w0
  | continues_call (m : number) (x : World) :
      continues w0 x → continues w0 (snd (squareAsync m x))
  | continues_advance (t : Z) (x : World) :
      continues w0 x → continues w0 (advance t x).

End Async.

(** ** Arrays with holes

    An array can lack some of its indices below [length] ([[1, , 3]],
    [new Array(3)]). The array methods visit the indices that exist only.
    Here an array is the list of its indices, [None] for an index that does
    not exist, and the three functions that go through an array are embedded
    again over such arrays; on an array without holes they are the
    functions above. *)
Module Sparse.

(** The array without holes that has these elements. *)
Definition dense {A} (l : list A) : list (option A) := map Some l.

(** The elements at the indices that exist, in order. *)
Fixpoint present {A} (arr : list (option A)) : list A :=
  match arr with
  | [] => []
  | Some x :: rest => x :: present rest
  | None :: rest => present rest
  end.

(** [arr.filter(callbackfn)]: each index that exists is tested, and the
    elements kept are put at the indices 0, 1, ... of a new array. *)
Fixpoint Array_filter {A} (callbackfn : A -> bool) (arr : list (option A))
  : list (option A) :=
  match arr with
  | [] => []
  | None :: rest => Array_filter callbackfn rest
  | Some kValue :: rest =>
      if callbackfn kValue
      then Some kValue :: Array_filter callbackfn rest
      else Array_filter callbackfn rest
  end.

Definition filterByRating (items : list (option RatedItem))
  : list (option RatedItem) :=
  Array_filter (fun item => Number.ge (rating item) (Number.of_Z 4)) items.

#[local] Set Warnings "-register-all".
Inductive Elem (T : Type) : Type :=
  | Atom (x : T)
  | Arr (xs : list (option (Elem T))).
Arguments Atom {T} x.
Arguments Arr {T} xs.

(** FlattenIntoArray: an index that does not exist is passed over; an
    element that is an array is spliced in while [depth] is positive. *)
Fixpoint FlattenIntoArray {T} (depth : nat) (source : list (option (Elem T)))
  : list (option (Elem T)) :=
  (fix each (source : list (option (Elem T))) : list (option (Elem T)) :=
     match source with
     | [] => []
     | None :: rest => each rest
     | Some element :: rest =>
         match depth, element with
         | S d, Arr xs => FlattenIntoArray d xs ++ each rest
         | _, _ => Some element :: each rest
         end
     end) source.

Definition Array_flat {T} (arr : list (option (Elem T)))
  : list (option (Elem T)) :=
  FlattenIntoArray 1 arr.

(** The rest parameter is an array without holes, of the arguments. *)
Definition concatenateArrays {T} (arrays : list (list (option (Elem T))))
  : list (option (Elem T)) :=
  Array_flat (dense (map Arr arrays)).

(** [arr.reduce(callbackfn)] without an initial value: the element at the
    first index that exists starts the accumulation, the callback runs on
    the later indices that exist, and an array where no index exists is a
    TypeError. *)
Fixpoint Array_reduce {A} (callbackfn : A -> A -> A) (arr : list (option A))
  : Completion A :=
  match arr with
  | [] => Throw TypeError
  | None :: rest => Array_reduce callbackfn rest
  | Some first :: rest =>
      Normal (fold_left
                (fun accumulator kValue =>
                   match kValue with
                   | Some v => callbackfn accumulator v
                   | None => accumulator
                   end)
                rest first)
  end.

Definition getMostExpensiveProduct (products : list (option Product))
  : Completion (option Product) :=
  if (length products =? 0)%nat then Normal None
  else
    max ← Array_reduce
            (fun max item =>
               if Number.gt (price item) (price max) then item else max)
            products;
    Normal (Some max).

End Sparse.

(** An element of an array without holes, as an element of an array that
    may have some. *)
Fixpoint of_dense {T} (e : Elem T) : Sparse.Elem T :=
  match e with
  | Atom x => Sparse.Atom x
  | Arr xs => Sparse.Arr (map (fun x => Some (of_dense x)) xs)
  end.

(** * Properties *)

(** ** filterByRating *)

Lemma filterByRating_cons item items :
  filterByRating (item :: items) =
    if Number.ge (rating item) (Number.of_Z 4)
    then item :: filterByRating items
    else filterByRating items.
Proof. reflexivity. Qed.

Lemma filterByRating_sublist items : filterByRating items `sublist_of` items.
Proof.
  induction items as [|item items IH]; [constructor|].
  rewrite filterByRating_cons.
  destruct (Number.ge _ _); by constructor.
Qed.

Lemma filterByRating_all_high items : Forall rated_high (filterByRating items).
Proof.
  induction items as [|item items IH]; [constructor|].
  rewrite filterByRating_cons.
  destruct (Number.ge _ _) eqn:Hge; [constructor|]; done.
Qed.

Lemma filterByRating_greatest kept items :
  kept `sublist_of` items → Forall rated_high kept →
  kept `sublist_of` filterByRating items.
Proof.
  induction 1 as [|item kept items _ IH|item kept items _ IH]; intros Hhigh.
  - constructor.
  - apply Forall_cons in Hhigh as [Hitem Hkept].
    rewrite filterByRating_cons. unfold rated_high in Hitem. rewrite Hitem.
    constructor. by apply IH.
  - rewrite filterByRating_cons.
    destruct (Number.ge _ _); [constructor|]; by apply IH.
Qed.

(** C6. [filterByRating items] is made of exactly the elements of [items]
    rated 4 or more, in their order in [items]: it is a subsequence of
    [items], an item is in it exactly when it is in [items] with
    [rating >= 4], and every subsequence of [items] whose items are all
    rated 4 or more is a subsequence of it. The empty sequence is mapped to
    the empty sequence. *)
Theorem filterByRating_exactly_high_in_order (items : list RatedItem) :
  filterByRating [] = [] ∧
  filterByRating items `sublist_of` items ∧
  (∀ item, item ∈ filterByRating items ↔ item ∈ items ∧ rated_high item) ∧
  (∀ kept, kept `sublist_of` items → Forall rated_high kept →
           kept `sublist_of` filterByRating items).
Proof.
  split; [reflexivity|]. split; [apply filterByRating_sublist|]. split.
  - intros item. split.
    + intros Hin. split.
      * eapply elem_of_sublist; [done|apply filterByRating_sublist].
      * pose proof (filterByRating_all_high items) as Hall.
        rewrite Forall_forall in Hall. by apply Hall.
    + intros [Hin Hhigh].
      assert ([item] `sublist_of` filterByRating items) as Hsub.
      { apply filterByRating_greatest.
        - by apply singleton_sublist_l.
        - by constructor. }
      by apply singleton_sublist_l in Hsub.
  - intros kept. apply filterByRating_greatest.
Qed.

(** ** concatenateArrays *)

Lemma FlattenIntoArray_cons {T} depth (element : Elem T) rest :
  FlattenIntoArray depth (element :: rest) =
    match depth, element with
    | S d, Arr xs => FlattenIntoArray d xs ++ FlattenIntoArray depth rest
    | _, _ => element :: FlattenIntoArray depth rest
    end.
Proof. by destruct depth. Qed.

Lemma FlattenIntoArray_0 {T} (source : list (Elem T)) :
  FlattenIntoArray 0 source = source.
Proof.
  induction source as [|element rest IH]; [reflexivity|].
  by rewrite FlattenIntoArray_cons, IH.
Qed.

Lemma concatenateArrays_cons {T} (first : list (Elem T)) rest :
  concatenateArrays (first :: rest) = first ++ concatenateArrays rest.
Proof.
  unfold concatenateArrays, Array_flat.
  by rewrite fmap_cons, FlattenIntoArray_cons, FlattenIntoArray_0.
Qed.

(** C7. [concatenateArrays] returns the one-level flattening of its
    arguments: the elements of the first array in their order, then those
    of the second, and so on. An element that is itself an array is copied
    as it is, not flattened. With no argument the result is empty. *)
Theorem concatenateArrays_one_level {T} (arrays : list (list (Elem T))) :
  concatenateArrays arrays = concat arrays ∧
  concatenateArrays (@nil (list (Elem T))) = [] ∧
  concatenateArrays [[Atom 1; Atom 2]; [Atom 3]; [Atom 4; Atom 5]]
    = [Atom 1; Atom 2; Atom 3; Atom 4; Atom 5] ∧
  concatenateArrays [[Atom 1; Arr [Atom 2; Arr [Atom 3]]]; [Arr [Atom 4]]]
    = [Atom 1; Arr [Atom 2; Arr [Atom 3]]; Arr [Atom 4]].
Proof.
  split; [|by repeat split].
  induction arrays as [|first rest IH]; [reflexivity|].
  rewrite concatenateArrays_cons, IH. reflexivity.
Qed.

(** ** getDayType *)

(** C8. [getDayType] is defined on each of the seven days, with no failing
    case: it answers "Weekend" for Saturday and for Sunday and "Weekday"
    for the five other days. *)
Theorem getDayType_total (day : Day) :
  getDayType day =
    match day with
    | Saturday | Sunday => js "Weekend"
    | Monday | Tuesday | Wednesday | Thursday | Friday => js "Weekday"
    end.
Proof. by destruct day. Qed.

(** ** Vehicle and Car *)

(** C9. A car built from [make], [year] and [model] answers [getInfo] with
    the method it inherits from [Vehicle], "Make: {make}, Year: {year}"
    with the year printed by Number::toString, and answers [getModel] with
    "Model: {model}". The Toyota Corolla of 2020 gives
    "Make: Toyota, Year: 2020" and "Model: Corolla". *)
Theorem Car_getInfo_getModel (shortest_digits : number → jsstring)
    (make : jsstring) (year : number) (model : jsstring) :
  let car := new_Car make year model in
  let toyota := new_Car (js "Toyota") (Number.of_Z 2020) (js "Corolla") in
  Car_getInfo shortest_digits car = Vehicle_getInfo shortest_digits car ∧
  Car_getInfo shortest_digits car
    = js "Make: " ++ make ++ js ", Year: "
        ++ Number_toString shortest_digits year ∧
  Car_getModel car = js "Model: " ++ model ∧
  Car_getInfo shortest_digits toyota = js "Make: Toyota, Year: 2020" ∧
  Car_getModel toyota = js "Model: Corolla".
Proof. by repeat split. Qed.

(** ** Integers as numbers *)

Lemma digits2_pos_shift (m k : positive) :
  digits2_pos (Pos.iter xO m k) = (digits2_pos m + k)%positive.
Proof.
  induction k as [|k IH] using Pos.peano_ind.
  - simpl. lia.
  - rewrite Pos.iter_succ. simpl. rewrite IH. lia.
Qed.

Lemma digits2_pos_bound (m : positive) :
  2 ^ (Z.pos (digits2_pos m) - 1) ≤ Z.pos m < 2 ^ Z.pos (digits2_pos m).
Proof.
  induction m as [m IH|m IH|]; simpl digits2_pos.
  - rewrite Pos2Z.inj_succ, Z.pow_succ_r by lia.
    replace (Z.succ (Z.pos (digits2_pos m)) - 1) with (Z.succ (Z.pos (digits2_pos m) - 1)) by lia.
    rewrite Z.pow_succ_r by lia. lia.
  - rewrite Pos2Z.inj_succ, Z.pow_succ_r by lia.
    replace (Z.succ (Z.pos (digits2_pos m)) - 1) with (Z.succ (Z.pos (digits2_pos m) - 1)) by lia.
    rewrite Z.pow_succ_r by lia. lia.
  - simpl. lia.
Qed.

Lemma digits2_pos_le_53 (m : positive) :
  Z.pos m < 2 ^ 53 → Z.pos (digits2_pos m) ≤ 53.
Proof.
  intros Hm. destruct (digits2_pos_bound m) as [Hlo _].
  destruct (Z_le_gt_dec (Z.pos (digits2_pos m)) 53) as [|Hgt]; [done|].
  assert (2 ^ 53 ≤ 2 ^ (Z.pos (digits2_pos m) - 1)) by (apply Z.pow_le_mono_r; lia).
  lia.
Qed.

(** A mantissa of 53 bits with an exponent in range is kept as it is. *)
Lemma binary_round_aux_53 (s : bool) (m : positive) (e : Z) :
  digits2_pos m = 53%positive → -1074 ≤ e ≤ 971 →
  binary_round_aux Number.prec Number.emax s (Z.pos m) e loc_Exact
    = S754_finite s m e.
Proof.
  intros Hd He.
  assert (shr_fexp Number.prec Number.emax (Z.pos m) e loc_Exact
          = ({| shr_m := Z.pos m; shr_r := false; shr_s := false |}, e)) as Hshr.
  { unfold shr_fexp, fexp, emin, Number.prec, Number.emax. simpl Zdigits2.
    rewrite Hd.
    replace (Z.max (53 + e - 53) (3 - 1024 - 53) - e) with 0 by lia.
    reflexivity. }
  unfold binary_round_aux. rewrite Hshr. simpl. rewrite Hshr. simpl.
  unfold Number.emax, Number.prec.
  destruct (Z.leb_spec e (1024 - 53)); [done|lia].
Qed.

Lemma of_Z_pos (m : positive) :
  Z.pos m < 2 ^ 53 →
  ∃ m' e, Number.of_Z (Z.pos m) = S754_finite false m' e ∧
          Number.to_Z (S754_finite false m' e) = Some (Z.pos m).
Proof.
  intros Hm. pose proof (digits2_pos_le_53 m Hm) as Hd.
  unfold Number.of_Z, binary_normalize, binary_round, shl_align.
  unfold fexp, emin, Number.prec, Number.emax.
  replace (Z.max (Z.pos (digits2_pos m) + 0 - 53) (3 - 1024 - 53) - 0)
    with (Z.pos (digits2_pos m) - 53) by lia.
  replace (Z.max (Z.pos (digits2_pos m) + 0 - 53) (3 - 1024 - 53))
    with (Z.pos (digits2_pos m) - 53) by lia.
  destruct (Z.pos (digits2_pos m) - 53) as [|k|k] eqn:Hk; [|lia|].
  - exists m, 0. split.
    + apply (binary_round_aux_53 false m 0); lia.
    + simpl. f_equal. lia.
  - exists (Pos.iter xO m k), (Z.neg k). split.
    + apply (binary_round_aux_53 false); [|lia].
      rewrite digits2_pos_shift. lia.
    + unfold Number.to_Z.
      change (Pos.iter xO m k) with (shift_pos k m).
      rewrite shift_pos_correct.
      rewrite Z.mul_comm, Z_mod_mult, Z_div_mult_full; [done|].
      rewrite Zpower_pos_nat. apply Z.neq_sym, Z.lt_neq.
      rewrite Zpower_nat_Z. apply Z.pow_pos_nonneg; lia.
    Qed.

Lemma of_Z_exact (z : Z) :
  0 ≤ z < 2 ^ 53 → Number.to_Z (Number.of_Z z) = Some z.
Proof.
  intros [Hlo Hhi]. destruct z as [|m|m]; [reflexivity| |lia].
  destruct (of_Z_pos m Hhi) as (m' & e & -> & ->). reflexivity.
Qed.

(** ** processValue *)

(** C3. On a text, [processValue] returns its length, the number of its
    code units (that number is exact, a string being shorter than 2^53);
    on a number, it returns the number multiplied by 2. So "hello" gives 5
    and 10 gives 20. *)
Theorem processValue_text_or_numeric (s : jsstring) (n : number) :
  processValue (VString s) = Normal (String_length s) ∧
  (Z.of_nat (length s) < 2 ^ 53 →
     Number.to_Z (String_length s) = Some (Z.of_nat (length s))) ∧
  processValue (VNumber n) = Normal (Number.mul n (Number.of_Z 2)) ∧
  processValue (VString (js "hello")) = Normal (Number.of_Z 5) ∧
  processValue (VNumber (Number.of_Z 10)) = Normal (Number.of_Z 20).
Proof.
  split; [reflexivity|]. split; [|by repeat split].
  intros Hlen. apply of_Z_exact. lia.
Qed.

Lemma processValue_text_or_numeric_witness :
  Number.to_Z (String_length (js "hello")) = Some 5.
Proof.
  apply (processValue_text_or_numeric (js "hello") (Number.of_Z 10)).
  simpl. lia.
Defined.

(** C4, as stated, fails: [true] is neither a text nor a number, and
    [processValue] turns it into 1 and returns 2 instead of failing. *)
Lemma processValue_true_is_coerced :
  typeof (VBoolean true) ≠ Tstring ∧
  typeof (VBoolean true) ≠ Tnumber ∧
  processValue (VBoolean true) = Normal (Number.of_Z 2) ∧
  ¬ (∃ e, processValue (VBoolean true) = Throw e).
Proof.
  repeat split; try done.
  intros [e He]. discriminate He.
Qed.

(** C4, amended. [processValue] has no check of its own for a value that is
    neither text nor number (its parameter type leaves such values out).
    When one reaches it, the numeric branch runs: a boolean, [null] or
    [undefined] is converted silently and a number comes back ([true]
    gives 2, [false] and [null] give 0, [undefined] gives NaN); a bigint or
    a symbol fails with the TypeError of the multiplication. *)
Theorem processValue_other_types (v : Value) :
  typeof v ≠ Tstring → typeof v ≠ Tnumber →
  match v with
  | VBoolean b => processValue v = Normal (Number.of_Z (if b then 2 else 0))
  | VNull => processValue v = Normal (Number.of_Z 0)
  | VUndefined => processValue v = Normal Number.NaN
  | VBigInt _ | VSymbol _ => processValue v = Throw TypeError
  | VString _ | VNumber _ => False
  end.
Proof.
  intros Hs Hn. destruct v as [s|n|[]| | |z|d]; done.
Qed.

Lemma processValue_other_types_witness :
  processValue VNull = Normal (Number.of_Z 0).
Proof. apply (processValue_other_types VNull); discriminate. Defined.

(** ** The order of numbers *)

Ltac compare_cases :=
  repeat match goal with
    | H : context [Z.compare ?x ?y] |- _ =>
        destruct (Z.compare_spec x y); simpl in H
    | H : context [Pos.compare_cont Eq ?x ?y] |- _ =>
        change (Pos.compare_cont Eq x y) with (Pos.compare x y) in H;
        destruct (Pos.compare_spec x y); simpl in H
    | |- context [Z.compare ?x ?y] =>
        destruct (Z.compare_spec x y); simpl
    | |- context [Pos.compare_cont Eq ?x ?y] =>
        change (Pos.compare_cont Eq x y) with (Pos.compare x y);
        destruct (Pos.compare_spec x y); simpl
    end;
  subst; try done; try lia.

Lemma lt_le (x y : number) : Number.lt x y = true → Number.le x y = true.
Proof.
  unfold Number.lt, Number.le, SFltb, SFleb.
  by destruct (SFcompare x y) as [[]|].
Qed.

(** Two numbers that are not NaN are always ordered. *)
Lemma not_lt_le (x y : number) :
  Number.comparable x → Number.comparable y →
  Number.lt y x = false → Number.le x y = true.
Proof.
  unfold Number.comparable, Number.lt, Number.le, SFltb, SFleb.
  destruct x as [[]|[]| |[] mx ex], y as [[]|[]| |[] my ey];
    simpl; intros Hx Hy H; try done; compare_cases.
Qed.

Lemma le_refl (x : number) : Number.comparable x → Number.le x x = true.
Proof.
  unfold Number.comparable, Number.le, SFleb.
  destruct x as [[]|[]| |[] mx ex]; simpl; intros Hx; try done;
    rewrite Z.compare_refl; change (Pos.compare_cont Eq mx mx) with (Pos.compare mx mx);
    by rewrite Pos.compare_refl.
Qed.

Lemma le_lt_trans (x y z : number) :
  Number.le x y = true → Number.lt y z = true → Number.lt x z = true.
Proof.
  unfold Number.lt, Number.le, SFltb, SFleb.
  destruct x as [[]|[]| |[] mx ex], y as [[]|[]| |[] my ey],
           z as [[]|[]| |[] mz ez];
    simpl; intros Hxy Hyz; try done; compare_cases.
Qed.

Lemma le_trans (x y z : number) :
  Number.le x y = true → Number.le y z = true → Number.le x z = true.
Proof.
  unfold Number.le, SFleb.
  destruct x as [[]|[]| |[] mx ex], y as [[]|[]| |[] my ey],
           z as [[]|[]| |[] mz ez];
    simpl; intros Hxy Hyz; try done; compare_cases.
Qed.

(** A number that is at least 0 is not below 0. *)
Lemma ge_0_not_lt_0 (n : number) :
  Number.ge n (Number.of_Z 0) = true → Number.lt n (Number.of_Z 0) = false.
Proof. by destruct n as [[]|[]| |[] m e]. Qed.

(** ** getMostExpensiveProduct *)

Lemma getMostExpensiveProduct_cons first rest :
  getMostExpensiveProduct (first :: rest)
    = Normal (Some (fold_left dearer rest first)).
Proof. reflexivity. Qed.

Lemma dearer_step seen i acc item :
  Forall priced seen → priced item →
  first_dearest seen i acc →
  ∃ i', first_dearest (seen ++ [item]) i' (dearer acc item).
Proof.
  intros Hseen Hitem (Hi & Hmax & Hfirst).
  assert (priced acc) as Hacc.
  { rewrite Forall_forall in Hseen. apply Hseen.
    by eapply list_elem_of_lookup_2. }
  unfold dearer, Number.gt. fold (Number.lt (price acc) (price item)).
  destruct (Number.lt (price acc) (price item)) eqn:Hlt.
  - exists (length seen). split; [|split].
    + by rewrite lookup_app_r, Nat.sub_diag.
    + intros j q Hj. apply lookup_snoc_Some in Hj as [[_ Hj]|[_ <-]].
      * apply lt_le. eapply le_lt_trans; [by eapply Hmax|done].
      * by apply le_refl.
    + intros j q Hj Hlen. apply lookup_snoc_Some in Hj as [[_ Hj]|[-> _]]; [|lia].
      eapply le_lt_trans; [by eapply Hmax|done].
  - exists i. split; [|split].
    + by apply lookup_app_l_Some.
    + intros j q Hj. apply lookup_snoc_Some in Hj as [[_ Hj]|[_ <-]].
      * by eapply Hmax.
      * by apply not_lt_le.
    + intros j q Hj Hji. apply lookup_snoc_Some in Hj as [[_ Hj]|[-> _]].
      * by eapply Hfirst.
      * apply lookup_lt_Some in Hi. lia.
Qed.

Lemma fold_left_dearer rest : ∀ seen i acc,
  Forall priced (seen ++ rest) →
  first_dearest seen i acc →
  ∃ i', first_dearest (seen ++ rest) i' (fold_left dearer rest acc).
Proof.
  induction rest as [|item rest IH]; intros seen i acc Hall Hacc.
  - rewrite app_nil_r. by exists i.
  - simpl fold_left. rewrite cons_middle, app_assoc in Hall |- *.
    apply Forall_app in Hall as Hboth. destruct Hboth as [Hseen _].
    apply Forall_app in Hseen as [Hseen Hitem].
    rewrite Forall_singleton in Hitem.
    destruct (dearer_step seen i acc item Hseen Hitem Hacc) as [i' Hstep].
    by apply (IH _ i').
Qed.

Lemma getMostExpensiveProduct_nonempty (products : list Product) :
  products ≠ [] → Forall priced products →
  ∃ i p, getMostExpensiveProduct products = Normal (Some p) ∧
         first_dearest products i p.
Proof.
  intros Hne Hall. destruct products as [|first rest]; [done|].
  rewrite getMostExpensiveProduct_cons.
  destruct (fold_left_dearer rest [first] 0%nat first) as [i Hi]; [done| |].
  - apply Forall_cons in Hall as [Hfirst _].
    split; [done|]. split.
    + intros [|j] q Hj; [|done]. injection Hj as <-. by apply le_refl.
    + intros j q _ Hj. lia.
  - by exists i, (fold_left dearer rest first).
Qed.

(** The reducer returns its starting product or a later one, and a later one
    only for a price that is not NaN. *)
Lemma fold_left_dearer_member rest : ∀ acc,
  fold_left dearer rest acc = acc ∨
  (fold_left dearer rest acc ∈ rest ∧
   Number.is_nan (price (fold_left dearer rest acc)) = false).
Proof.
  induction rest as [|item rest IH]; intros acc; [by left|].
  simpl. destruct (IH (dearer acc item)) as [Heq|[Hin Hnan]].
  - rewrite Heq. unfold dearer, Number.gt.
    destruct (SFltb (price acc) (price item)) eqn:Hlt; [|by left].
    right. split; [by left|].
    unfold SFltb in Hlt. by destruct (price acc), (price item).
  - right. split; [by right|done].
Qed.

(** Outside that domain the reducer does not find a maximum: a NaN price
    makes every comparison false, so a product priced NaN that comes first
    is kept. *)
Remark getMostExpensiveProduct_NaN_price :
  getMostExpensiveProduct
    [mkProduct (js "A") Number.NaN; mkProduct (js "B") (Number.of_Z 10)]
    = Normal (Some (mkProduct (js "A") Number.NaN)) ∧
  Number.ge Number.NaN (Number.of_Z 10) = false.
Proof. by split. Qed.

(** C5. On the empty sequence the result is absent, [null], and not an
    error. On a non-empty sequence of products (their prices being numbers
    that can be compared, that is, not NaN) the result is the product with
    the greatest price, and among several products of that price the first
    one: no product costs more than it and each product before it costs
    strictly less, since the reducer replaces the running maximum on [>]
    only. With A and B both priced 10, the result is A. *)
Theorem getMostExpensiveProduct_first_of_greatest (products : list Product) :
  getMostExpensiveProduct [] = Normal None ∧
  (products ≠ [] → Forall priced products →
   ∃ i p, getMostExpensiveProduct products = Normal (Some p) ∧
          first_dearest products i p) ∧
  getMostExpensiveProduct
    [mkProduct (js "A") (Number.of_Z 10); mkProduct (js "B") (Number.of_Z 10)]
    = Normal (Some (mkProduct (js "A") (Number.of_Z 10))).
Proof.
  split; [reflexivity|]. split; [|reflexivity].
  apply getMostExpensiveProduct_nonempty.
Qed.

Lemma getMostExpensiveProduct_first_of_greatest_witness :
  ∃ i p,
    getMostExpensiveProduct
      [mkProduct (js "A") (Number.of_Z 10); mkProduct (js "B") (Number.of_Z 10)]
      = Normal (Some p) ∧
    first_dearest
      [mkProduct (js "A") (Number.of_Z 10); mkProduct (js "B") (Number.of_Z 10)]
      i p.
Proof.
  destruct (getMostExpensiveProduct_first_of_greatest
              [mkProduct (js "A") (Number.of_Z 10);
               mkProduct (js "B") (Number.of_Z 10)]) as (_ & H & _).
  apply H; [done|]. by repeat constructor.
Defined.

(** C10, as stated, fails: the price of a product is any number, and when
    the first product is priced NaN it is returned, although NaN is not
    greater than or equal to any price. *)
Lemma getMostExpensiveProduct_NaN_not_bound :
  [mkProduct (js "A") Number.NaN; mkProduct (js "B") (Number.of_Z 10)] ≠ [] ∧
  getMostExpensiveProduct
    [mkProduct (js "A") Number.NaN; mkProduct (js "B") (Number.of_Z 10)]
    = Normal (Some (mkProduct (js "A") Number.NaN)) ∧
  ¬ (∀ q,
       q ∈ [mkProduct (js "A") Number.NaN; mkProduct (js "B") (Number.of_Z 10)] →
       Number.ge (price (mkProduct (js "A") Number.NaN)) (price q) = true).
Proof.
  split; [done|]. split; [reflexivity|].
  intros Hall.
  specialize (Hall (mkProduct (js "B") (Number.of_Z 10))).
  discriminate Hall. right. by left.
Qed.

(** C10, amended. On a non-empty sequence of products the product returned
    is one of the sequence, whatever the prices; and when no price is NaN,
    its price is greater than or equal to the price of each product of the
    sequence. *)
Theorem getMostExpensiveProduct_member_and_bound (products : list Product) :
  products ≠ [] →
  ∃ p, getMostExpensiveProduct products = Normal (Some p) ∧
       p ∈ products ∧
       (Forall priced products →
        ∀ q, q ∈ products → Number.ge (price p) (price q) = true).
Proof.
  intros Hne. destruct products as [|first rest]; [done|].
  exists (fold_left dearer rest first).
  split; [apply getMostExpensiveProduct_cons|]. split.
  - destruct (fold_left_dearer_member rest first) as [->|[Hin _]].
    + by left.
    + by right.
  - intros Hall q [j Hj]%list_elem_of_lookup.
    destruct (getMostExpensiveProduct_nonempty (first :: rest) Hne Hall)
      as (i & p & Hres & _ & Hmax & _).
    rewrite getMostExpensiveProduct_cons in Hres. injection Hres as <-.
    by eapply Hmax.
Qed.

Lemma getMostExpensiveProduct_member_and_bound_witness :
  ∃ p,
    getMostExpensiveProduct
      [mkProduct (js "pen") (Number.of_Z 3); mkProduct (js "ink") (Number.of_Z 12);
       mkProduct (js "pad") (Number.of_Z 7)]
      = Normal (Some p) ∧
    p ∈ [mkProduct (js "pen") (Number.of_Z 3); mkProduct (js "ink") (Number.of_Z 12);
         mkProduct (js "pad") (Number.of_Z 7)] ∧
    ∀ q,
      q ∈ [mkProduct (js "pen") (Number.of_Z 3); mkProduct (js "ink") (Number.of_Z 12);
           mkProduct (js "pad") (Number.of_Z 7)] →
      Number.ge (price p) (price q) = true.
Proof.
  destruct (getMostExpensiveProduct_member_and_bound
              [mkProduct (js "pen") (Number.of_Z 3);
               mkProduct (js "ink") (Number.of_Z 12);
               mkProduct (js "pad") (Number.of_Z 7)])
    as (p & Hres & Hin & Hbound); [done|].
  exists p. split; [done|]. split; [done|].
  apply Hbound. by repeat constructor.
Defined.

(** ** squareAsync *)

Import Async.

Lemma settle_new_promise (w : World) (outcome : PromiseState) :
  settle (length (promises w)) outcome (snd (new_promise w))
    = set_promises (promises w ++ [mkPromise outcome []]) w.
Proof.
  unfold settle, new_promise. simpl.
  rewrite list_lookup_middle by done.
  unfold set_jobs, set_promises. simpl.
  rewrite app_nil_r. f_equal.
  replace (length (promises w)) with (length (promises w) + 0)%nat by lia.
  by rewrite insert_app_r.
Qed.

(** A settled promise keeps its state. *)
Lemma settle_settled p outcome q w s :
  state_of q w = Some s → s ≠ Pending → state_of q (settle p outcome w) = Some s.
Proof.
  intros Hq Hs. unfold settle.
  destruct (promises w !! p) as [[[] rs]|] eqn:Hp; try done.
  unfold state_of in *. simpl.
  destruct (decide (p = q)) as [->|Hne].
  - rewrite Hp in Hq. simpl in Hq. congruence.
  - by rewrite list_lookup_insert_ne.
Qed.

Lemma then_forward_state p target q w :
  state_of q (then_forward p target w) = state_of q w.
Proof.
  unfold then_forward.
  destruct (promises w !! p) as [[[] rs]|] eqn:Hp; try done.
  unfold state_of. simpl.
  destruct (decide (p = q)) as [->|Hne].
  - rewrite Hp. rewrite list_lookup_insert_eq; [done|].
    by eapply lookup_lt_Some.
  - by rewrite list_lookup_insert_ne.
Qed.

Lemma run_job_settled j q w s :
  state_of q w = Some s → s ≠ Pending → state_of q (run_job j w) = Some s.
Proof.
  intros Hq Hs. destruct j as [target thenable|target outcome]; simpl.
  - by rewrite then_forward_state.
  - by apply settle_settled.
Qed.

Lemma drain_settled fuel : ∀ q w s,
  state_of q w = Some s → s ≠ Pending → state_of q (drain fuel w) = Some s.
Proof.
  induction fuel as [|fuel IH]; intros q w s Hq Hs; [by destruct (jobs w)|].
  simpl. destruct (jobs w) as [|j rest]; [done|].
  apply IH; [|done]. by apply run_job_settled.
Qed.

Lemma expire_settled rounds t : ∀ q w s,
  state_of q w = Some s → s ≠ Pending → state_of q (expire rounds t w) = Some s.
Proof.
  induction rounds as [|rounds IH]; intros q w s Hq Hs; [done|].
  simpl. destruct (pop_earliest (timers w)) as [[tm rest]|]; [|done].
  destruct (due tm <=? t); [|done].
  apply IH; [|done]. apply drain_settled; [|done].
  unfold fire. destruct (callback tm) as [p n].
  by apply settle_settled.
Qed.

Lemma advance_settled t q w s :
  state_of q w = Some s → s ≠ Pending → state_of q (advance t w) = Some s.
Proof.
  intros Hq Hs. unfold advance, state_of. simpl.
  apply expire_settled; [|done]. by apply drain_settled.
Qed.

(** C1. For a number [n < 0], [squareAsync n] fails at once with the error
    it makes for a negative input: the call completes normally and returns
    a promise that is already rejected with that error; no timer is
    registered, no job is queued and no time passes. The promise stays
    rejected whatever the event loop does afterwards. *)
Theorem squareAsync_negative_rejected (n : number) (w : World) :
  Number.lt n (Number.of_Z 0) = true →
  ∃ p w',
    squareAsync n w = (Normal p, w') ∧
    state_of p w'
      = Some (Rejected (Error (js "Negative number not allowed"))) ∧
    timers w' = timers w ∧ jobs w' = jobs w ∧ clock w' = clock w ∧
    ∀ t, state_of p (advance t w')
           = Some (Rejected (Error (js "Negative number not allowed"))).
Proof.
  intros Hneg.
  exists (length (promises w)),
         (set_promises
            (promises w ++
               [mkPromise (Rejected (Error (js "Negative number not allowed"))) []])
            w).
  assert (state_of (length (promises w))
            (set_promises
               (promises w ++
                  [mkPromise (Rejected (Error (js "Negative number not allowed"))) []])
               w)
          = Some (Rejected (Error (js "Negative number not allowed")))) as Hstate.
  { unfold state_of. simpl. by rewrite list_lookup_middle. }
  split; [|repeat split; try done].
  - unfold squareAsync, async_call, squareAsync_body.
    destruct (new_promise w) as [p w0] eqn:Hnew. rewrite Hneg.
    injection Hnew as <- <-. f_equal.
    apply (settle_new_promise w).
  - intros t. by apply advance_settled.
Qed.

Lemma squareAsync_negative_rejected_witness :
  ∃ p w',
    squareAsync (Number.of_Z (-1)) (fresh 0) = (Normal p, w') ∧
    state_of p w'
      = Some (Rejected (Error (js "Negative number not allowed"))) ∧
    timers w' = timers (fresh 0) ∧ jobs w' = jobs (fresh 0) ∧
    clock w' = clock (fresh 0) ∧
    ∀ t, state_of p (advance t w')
           = Some (Rejected (Error (js "Negative number not allowed"))).
Proof.
  apply (squareAsync_negative_rejected (Number.of_Z (-1)) (fresh 0)).
  reflexivity.
Defined.

(** *** The job queue empties *)

Lemma sum_list_insert {A} (f : A → nat) (l : list A) (i : nat) (x y : A) :
  l !! i = Some x →
  (sum_list_with f (<[i:=y]> l) + f x = sum_list_with f l + f y)%nat.
Proof.
  revert i. induction l as [|a l IH]; intros [|i] Hi; try done; simpl in *.
  - injection Hi as ->. lia.
  - specialize (IH i Hi). lia.
Qed.

Lemma sum_list_job_weight_reactions outcome (rs : list PromiseId) :
  sum_list_with job_weight (map (fun t => ReactionJob t outcome) rs) = length rs.
Proof. induction rs as [|r rs IH]; simpl; [done|]. by rewrite IH. Qed.

Lemma budget_settle p outcome w :
  budget (settle p outcome w) = budget w.
Proof.
  unfold settle. destruct (promises w !! p) as [[[] rs]|] eqn:Hp; try done.
  unfold budget. simpl.
  rewrite sum_list_with_app, sum_list_job_weight_reactions.
  pose proof (sum_list_insert (fun p => length (reactions p)) (promises w) p
                (mkPromise Pending rs) (mkPromise outcome []) Hp) as Hsum.
  simpl in Hsum. lia.
Qed.

Lemma budget_then_forward p target w :
  (budget (then_forward p target w) ≤ budget w + 1)%nat.
Proof.
  unfold then_forward.
  destruct (promises w !! p) as [[[] rs]|] eqn:Hp; try lia;
    unfold budget; simpl.
  - pose proof (sum_list_insert (fun p => length (reactions p)) (promises w) p
                  (mkPromise Pending rs) (mkPromise Pending (rs ++ [target])) Hp)
      as Hsum.
    simpl in Hsum. rewrite length_app in Hsum. simpl in Hsum. lia.
  - rewrite sum_list_with_app. simpl. lia.
  - rewrite sum_list_with_app. simpl. lia.
Qed.

Lemma budget_step j rest w :
  jobs w = j :: rest →
  (budget (run_job j (set_jobs rest w)) < budget w)%nat.
Proof.
  intros Hjobs.
  assert (budget w = job_weight j + budget (set_jobs rest w))%nat as ->.
  { unfold budget. rewrite Hjobs. simpl. lia. }
  destruct j as [target thenable|target outcome]; simpl.
  - pose proof (budget_then_forward thenable target (set_jobs rest w)). lia.
  - rewrite budget_settle. lia.
Qed.

Lemma drain_empties fuel : ∀ w,
  (budget w ≤ fuel)%nat → jobs (drain fuel w) = [].
Proof.
  induction fuel as [|fuel IH]; intros w Hfuel.
  - simpl. destruct (jobs w) as [|j rest] eqn:Hjobs; [by destruct (jobs w)|].
    unfold budget in Hfuel. rewrite Hjobs in Hfuel.
    destruct j; simpl in Hfuel; lia.
  - simpl. destruct (jobs w) as [|j rest] eqn:Hjobs; [done|].
    apply IH. pose proof (budget_step j rest w Hjobs). lia.
Qed.

Lemma run_jobs_empties w : jobs (run_jobs w) = [].
Proof. by apply drain_empties. Qed.

(** *** Steps of older work *)

Lemma older_effect_refl b x :
  older_promises b (promises x) → older_effect b x x.
Proof.
  intros Hold. exists (promises x), []. repeat split; try done.
  destruct x. unfold set_jobs, set_promises. simpl. by rewrite app_nil_r.
Qed.

Lemma settle_older b q outcome x :
  (q < b)%nat → older_promises b (promises x) →
  older_effect b x (settle q outcome x).
Proof.
  intros Hq Hold. unfold settle.
  destruct (promises x !! q) as [[[] rs]|] eqn:Hlook;
    try by apply older_effect_refl.
  exists (<[q := mkPromise outcome []]> (promises x)),
         (map (fun t => ReactionJob t outcome) rs).
  split; [done|]. split; [by rewrite length_insert|]. split; [|split].
  - intros i pr Hi Hpr. destruct (decide (q = i)) as [->|Hne].
    + rewrite list_lookup_insert_eq in Hpr by (by eapply lookup_lt_Some).
      injection Hpr as <-. constructor.
    + rewrite list_lookup_insert_ne in Hpr by done. by eapply Hold.
  - intros i Hi. rewrite list_lookup_insert_ne by lia. done.
  - apply Forall_fmap. specialize (Hold q _ Hq Hlook). simpl in Hold.
    eapply Forall_impl; [exact Hold|]. done.
Qed.

Lemma then_forward_older b p target x :
  (p < b)%nat → (target < b)%nat → older_promises b (promises x) →
  older_effect b x (then_forward p target x).
Proof.
  intros Hp Htarget Hold. unfold then_forward.
  destruct (promises x !! p) as [[[] rs]|] eqn:Hlook;
    try by apply older_effect_refl.
  - exists (<[p := mkPromise Pending (rs ++ [target])]> (promises x)), [].
    split; [|split; [by rewrite length_insert|split; [|split]]].
    + destruct x. unfold set_jobs, set_promises. simpl. by rewrite app_nil_r.
    + intros i pr Hi Hpr. destruct (decide (p = i)) as [->|Hne].
      * rewrite list_lookup_insert_eq in Hpr by (by eapply lookup_lt_Some).
        injection Hpr as <-. simpl. apply Forall_app. split.
        -- apply (Hold i _ Hi Hlook).
        -- by constructor.
      * rewrite list_lookup_insert_ne in Hpr by done. by eapply Hold.
    + intros i Hi. rewrite list_lookup_insert_ne by lia. done.
    + constructor.
  - exists (promises x), [ReactionJob target (Fulfilled value)].
    repeat split; try done. by constructor.
  - exists (promises x), [ReactionJob target (Rejected reason)].
    repeat split; try done. by constructor.
Qed.

Lemma run_job_older b j x :
  older_job b j → older_promises b (promises x) →
  older_effect b x (run_job j x).
Proof.
  destruct j as [target thenable|target outcome]; simpl.
  - intros [Htarget Hthenable]. by apply then_forward_older.
  - intros Htarget. by apply settle_older.
Qed.

Lemma fire_older b tm x :
  older_timer b tm → older_promises b (promises x) →
  older_effect b x (fire tm x).
Proof.
  unfold older_timer, fire. destruct (callback tm) as [p n].
  intros Hp. by apply settle_older.
Qed.

Lemma Waiting_older_effect b n d x y :
  Waiting b n d x → older_effect b x y → Waiting b n d y.
Proof.
  intros [Hlen Hold Houter (rs & Hinner & Hrs & Hjob) Hjobs Htimers Htimer]
         (ps' & js' & -> & Hlen' & Hold' & Hsame & Hjs').
  split; simpl; try done.
  - congruence.
  - by rewrite Hsame by lia.
  - exists rs. rewrite Hsame by lia. repeat split; try done.
    intros Hnil. apply elem_of_app. left. by apply Hjob.
  - apply Forall_app. split; [done|].
    eapply Forall_impl; [exact Hjs'|]. by left.
Qed.

Lemma Fired_older_effect b n d x y :
  Fired b n d x → older_effect b x y → Fired b n d y.
Proof.
  intros [Hlen Hold Hinner Houter Hjobs Htimers]
         (ps' & js' & -> & Hlen' & Hold' & Hsame & Hjs').
  split; simpl; try done.
  - congruence.
  - by rewrite Hsame by lia.
  - rewrite Hsame by lia. destruct Houter as [Hdone|[Hpending Hjob]].
    + by left.
    + right. split; [done|]. apply elem_of_app. by left.
  - apply Forall_app. split; [done|].
    eapply Forall_impl; [exact Hjs'|]. by left.
Qed.

(** *** Jobs preserve the invariants *)

Lemma the_job_not_older b : ¬ older_job b (the_job b).
Proof. simpl. lia. Qed.

Lemma the_reaction_not_older b n : ¬ older_job b (the_reaction b n).
Proof. simpl. lia. Qed.

Lemma the_timer_not_older b n d : ¬ older_timer b (the_timer b n d).
Proof. unfold older_timer. simpl. lia. Qed.

Lemma Waiting_step b n d x j rest :
  Waiting b n d x → jobs x = j :: rest →
  Waiting b n d (run_job j (set_jobs rest x)).
Proof.
  intros Hx Hjobs.
  destruct Hx as [Hlen Hold Houter (rs & Hinner & Hrs & Hjob) Hall Htimers Htimer].
  rewrite Hjobs in Hall, Hjob. apply Forall_cons in Hall as [Hj Hrest].
  destruct Hj as [Hj| ->].
  - apply (Waiting_older_effect b n d (set_jobs rest x)).
    + split; simpl; try done. exists rs. repeat split; try done.
      intros Hnil. specialize (Hjob Hnil).
      apply elem_of_cons in Hjob as [<-|Hin]; [|done].
      by apply the_job_not_older in Hj.
    + by apply run_job_older.
  - simpl. unfold then_forward. simpl. rewrite Hinner.
    split; simpl; try done.
    + by rewrite length_insert.
    + intros i pr Hi Hpr. rewrite list_lookup_insert_ne in Hpr by lia.
      by eapply Hold.
    + by rewrite list_lookup_insert_ne by lia.
    + exists (rs ++ [b]).
      rewrite list_lookup_insert_eq by lia. repeat split.
      * apply Forall_app. split; [done|]. by constructor.
      * intros Hnil. by destruct rs.
Qed.

Lemma Fired_step b n d x j rest :
  Fired b n d x → jobs x = j :: rest →
  Fired b n d (run_job j (set_jobs rest x)).
Proof.
  intros Hx Hjobs.
  destruct Hx as [Hlen Hold Hinner Houter Hall Htimers].
  rewrite Hjobs in Hall, Houter. apply Forall_cons in Hall as [Hj Hrest].
  destruct Hj as [Hj|[->| ->]].
  - apply (Fired_older_effect b n d (set_jobs rest x)).
    + split; simpl; try done.
      destruct Houter as [Hdone|[Hpending Hin]]; [by left|right].
      split; [done|].
      apply elem_of_cons in Hin as [<-|Hin]; [|done].
      by apply the_reaction_not_older in Hj.
    + by apply run_job_older.
  - simpl. unfold then_forward. simpl. rewrite Hinner. simpl.
    split; simpl; try done.
    + destruct Houter as [Hdone|[Hpending Hin]]; [by left|right].
      split; [done|]. apply elem_of_app. right. by apply list_elem_of_singleton.
    + apply Forall_app. split; [done|]. constructor; [|done]. by right; right.
  - simpl. unfold settle. simpl.
    destruct Houter as [Hdone|[Hpending Hin]].
    + rewrite Hdone. simpl. split; simpl; try done. by left.
    + rewrite Hpending. split; simpl.
      * by rewrite length_insert.
      * intros i pr Hi Hpr. rewrite list_lookup_insert_ne in Hpr by lia.
        by eapply Hold.
      * by rewrite list_lookup_insert_ne by lia.
      * left. by rewrite list_lookup_insert_eq by lia.
      * by rewrite app_nil_r.
      * done.
Qed.

Lemma drain_Waiting b n d fuel : ∀ x,
  Waiting b n d x → Waiting b n d (drain fuel x).
Proof.
  induction fuel as [|fuel IH]; intros x Hx; [by destruct (jobs x)|].
  simpl. destruct (jobs x) as [|j rest] eqn:Hjobs; [done|].
  apply IH. by apply Waiting_step.
Qed.

Lemma drain_Fired b n d fuel : ∀ x,
  Fired b n d x → Fired b n d (drain fuel x).
Proof.
  induction fuel as [|fuel IH]; intros x Hx; [by destruct (jobs x)|].
  simpl. destruct (jobs x) as [|j rest] eqn:Hjobs; [done|].
  apply IH. by apply Fired_step.
Qed.

(** *** Timers *)

Lemma settle_timers p outcome w : timers (settle p outcome w) = timers w.
Proof.
  unfold settle. by destruct (promises w !! p) as [[[] rs]|].
Qed.

Lemma then_forward_timers p target w :
  timers (then_forward p target w) = timers w.
Proof.
  unfold then_forward. by destruct (promises w !! p) as [[[] rs]|].
Qed.

Lemma drain_timers fuel : ∀ w, timers (drain fuel w) = timers w.
Proof.
  induction fuel as [|fuel IH]; intros w; [by destruct (jobs w)|].
  simpl. destruct (jobs w) as [|j rest]; [done|].
  rewrite IH. destruct j; simpl.
  - by rewrite then_forward_timers.
  - by rewrite settle_timers.
Qed.

Lemma fire_timers tm w : timers (fire tm w) = timers w.
Proof. unfold fire. destruct (callback tm). apply settle_timers. Qed.

Lemma pop_earliest_None ts : pop_earliest ts = None → ts = [].
Proof.
  destruct ts as [|tm rest]; [done|]. simpl.
  destruct (pop_earliest rest) as [[tm' rest']|]; [|done].
  by destruct (due tm' <? due tm).
Qed.

Lemma pop_earliest_Some ts : ∀ tm rest,
  pop_earliest ts = Some (tm, rest) →
  ts ≡ₚ tm :: rest ∧ Forall (fun tm' => due tm ≤ due tm') ts.
Proof.
  induction ts as [|tm0 ts IH]; intros tm rest Hpop; [done|].
  simpl in Hpop.
  destruct (pop_earliest ts) as [[tm' rest']|] eqn:Hts.
  - destruct (IH tm' rest' eq_refl) as [Hperm Hmin].
    destruct (Z.ltb_spec (due tm') (due tm0)) as [Hlt|Hge];
      injection Hpop as <- <-.
    + split.
      * rewrite Hperm. apply Permutation_swap.
      * constructor; [lia|done].
    + split; [done|]. constructor; [lia|].
      eapply Forall_impl; [exact Hmin|]. simpl. intros tm1 H1. lia.
  - injection Hpop as <- <-. apply pop_earliest_None in Hts as ->.
    split; [done|]. constructor; [lia|constructor].
Qed.

Lemma Waiting_fire b n d x tm rest c :
  Waiting b n d x → jobs x = [] → timers x ≡ₚ tm :: rest →
  let y := fire tm (set_timers rest (set_clock c x)) in
  (older_timer b tm ∧ Waiting b n d y) ∨ (tm = the_timer b n d ∧ Fired b n d y).
Proof.
  intros Hx Hjobs Hperm y.
  destruct Hx as [Hlen Hold Houter (rs & Hinner & Hrs & Hjob) Hall Htimers Htimer].
  rewrite Hperm in Htimers, Htimer. apply Forall_cons in Htimers as [Htm Hrest].
  destruct Htm as [Htm| ->].
  - left. split; [done|].
    apply (Waiting_older_effect b n d (set_timers rest (set_clock c x))).
    + split; simpl; try done.
      * by exists rs.
      * apply elem_of_cons in Htimer as [<-|Hin]; [|done].
        by apply the_timer_not_older in Htm.
    + by apply fire_older.
  - right. split; [done|]. subst y.
    unfold fire, the_timer, settle. simpl. rewrite Hinner.
    assert (rs ≠ []) as Hne.
    { intros Hnil. specialize (Hjob Hnil). rewrite Hjobs in Hjob.
      by apply elem_of_nil in Hjob. }
    split; simpl.
    + by rewrite length_insert.
    + intros i pr Hi Hpr. rewrite list_lookup_insert_ne in Hpr by lia.
      by eapply Hold.
    + by rewrite list_lookup_insert_eq by lia.
    + right. rewrite list_lookup_insert_ne by lia. split; [done|].
      rewrite Hjobs. simpl. destruct rs as [|r rs]; [done|].
      apply Forall_cons in Hrs as [<- _]. simpl. by left.
    + rewrite Hjobs. simpl. apply Forall_fmap.
      eapply Forall_impl; [exact Hrs|]. simpl. intros r <-. by right; right.
    + done.
Qed.

Lemma Fired_fire b n d x tm rest c :
  Fired b n d x → timers x ≡ₚ tm :: rest →
  Fired b n d (fire tm (set_timers rest (set_clock c x))).
Proof.
  intros Hx Hperm.
  destruct Hx as [Hlen Hold Hinner Houter Hall Htimers].
  rewrite Hperm in Htimers. apply Forall_cons in Htimers as [Htm Hrest].
  assert (Fired b n d (set_timers rest (set_clock c x))) as Hx' by done.
  destruct Htm as [Htm| ->].
  - eapply Fired_older_effect; [exact Hx'|]. by apply fire_older.
  - unfold fire, the_timer, settle. simpl. by rewrite Hinner.
Qed.

Lemma expire_Fired b n d t rounds : ∀ x,
  Fired b n d x → jobs x = [] →
  Fired b n d (expire rounds t x) ∧ jobs (expire rounds t x) = [].
Proof.
  induction rounds as [|rounds IH]; intros x Hx Hjobs; [done|].
  simpl. destruct (pop_earliest (timers x)) as [[tm rest]|] eqn:Hpop; [|done].
  destruct (due tm <=? t); [|done].
  apply pop_earliest_Some in Hpop as [Hperm _].
  apply IH; [|apply run_jobs_empties].
  apply drain_Fired. by apply Fired_fire.
Qed.

Lemma expire_Waiting b n d t rounds : ∀ x,
  Waiting b n d x → jobs x = [] → (length (timers x) ≤ rounds)%nat →
  let y := expire rounds t x in
  jobs y = [] ∧ (d ≤ t → Fired b n d y) ∧ (t < d → Waiting b n d y).
Proof.
  induction rounds as [|rounds IH]; intros x Hx Hjobs Hrounds.
  - destruct Hx. destruct (timers x); [by apply elem_of_nil in waiting_timer0|].
    simpl in Hrounds. lia.
  - simpl.
    destruct (pop_earliest (timers x)) as [[tm rest]|] eqn:Hpop.
    + apply pop_earliest_Some in Hpop as [Hperm Hmin].
      assert (due tm ≤ d) as Hdue.
      { rewrite Forall_forall in Hmin.
        apply (Hmin (the_timer b n d)). by destruct Hx. }
      destruct (Z.leb_spec (due tm) t) as [Hle|Hgt].
      * destruct (Waiting_fire b n d x tm rest (Z.max (clock x) (due tm))
                    Hx Hjobs Hperm) as [[Htm Hy]|[-> Hy]].
        -- apply IH.
           ++ by apply drain_Waiting.
           ++ apply run_jobs_empties.
           ++ unfold run_jobs. rewrite drain_timers, fire_timers. simpl.
              apply Permutation_length in Hperm. simpl in Hperm. lia.
        -- simpl in Hle.
           destruct (expire_Fired b n d t rounds
                       (run_jobs (fire (the_timer b n d) (set_timers rest
                          (set_clock (Z.max (clock x) (due (the_timer b n d))) x)))))
             as [Hfired Hempty].
           ++ by apply drain_Fired.
           ++ apply run_jobs_empties.
           ++ split; [done|]. split; [done|]. intros Hlt. lia.
      * split; [done|]. split; [intros Hle; lia|done].
    + apply pop_earliest_None in Hpop. destruct Hx.
      rewrite Hpop in waiting_timer0. by apply elem_of_nil in waiting_timer0.
Qed.

(** *** Well-formed worlds *)

Lemma well_formed_fresh now : well_formed (fresh now).
Proof. split; simpl; [|done|done]. intros i pr Hi. lia. Qed.

Lemma well_formed_older_effect x y :
  well_formed x → older_effect (length (promises x)) x y → well_formed y.
Proof.
  intros [Hps Hjs Hts] (ps' & js' & -> & Hlen & Hold & _ & Hjs').
  split; simpl; rewrite Hlen; [done| |done].
  apply Forall_app. by split.
Qed.

Lemma drain_well_formed fuel : ∀ w, well_formed w → well_formed (drain fuel w).
Proof.
  induction fuel as [|fuel IH]; intros w Hw; [by destruct (jobs w)|].
  simpl. destruct (jobs w) as [|j rest] eqn:Hjobs; [done|].
  apply IH. destruct Hw as [Hps Hjs Hts].
  rewrite Hjobs in Hjs. apply Forall_cons in Hjs as [Hj Hrest].
  apply (well_formed_older_effect (set_jobs rest w)); [done|].
  by apply run_job_older.
Qed.

Lemma expire_well_formed t rounds : ∀ w,
  well_formed w → well_formed (expire rounds t w).
Proof.
  induction rounds as [|rounds IH]; intros w Hw; [done|].
  simpl. destruct (pop_earliest (timers w)) as [[tm rest]|] eqn:Hpop; [|done].
  destruct (due tm <=? t); [|done].
  apply pop_earliest_Some in Hpop as [Hperm _].
  apply IH, drain_well_formed. destruct Hw as [Hps Hjs Hts].
  rewrite Hperm in Hts. apply Forall_cons in Hts as [Htm Hrest].
  apply (well_formed_older_effect
           (set_timers rest (set_clock (Z.max (clock w) (due tm)) w)));
    [done|].
  by apply fire_older.
Qed.

(** Time passing keeps a world well formed. *)
Lemma advance_well_formed t w : well_formed w → well_formed (advance t w).
Proof.
  intros Hw.
  destruct (expire_well_formed t (length (timers (run_jobs w))) (run_jobs w))
    as [Hps Hjs Hts]; [by apply drain_well_formed|].
  done.
Qed.

(** *** A call with a number that is not negative *)

Lemma squareAsync_not_negative n w :
  Number.lt n (Number.of_Z 0) = false →
  squareAsync n w =
    (Normal (length (promises w)),
     set_jobs (jobs w ++ [the_job (length (promises w))])
       (set_timers
          (timers w ++ [the_timer (length (promises w)) n (clock w + 1000)])
          (set_promises
             (promises w ++ [mkPromise Pending []; mkPromise Pending []]) w))).
Proof.
  intros Hlt. unfold squareAsync, async_call, squareAsync_body, new_promise.
  cbv beta iota. rewrite Hlt. simpl. unfold enqueue, setTimeout, set_jobs, set_timers,
    set_promises, the_job, the_timer. simpl.
  rewrite length_app, <- app_assoc. simpl.
  by rewrite Nat.add_1_r.
Qed.

Lemma squareAsync_Waiting n w :
  well_formed w →
  Waiting (length (promises w)) n (clock w + 1000)
    (set_jobs (jobs w ++ [the_job (length (promises w))])
       (set_timers
          (timers w ++ [the_timer (length (promises w)) n (clock w + 1000)])
          (set_promises
             (promises w ++ [mkPromise Pending []; mkPromise Pending []]) w))).
Proof.
  intros [Hps Hjs Hts]. split; simpl.
  - rewrite length_app. simpl. lia.
  - intros i pr Hi Hpr. rewrite lookup_app_l in Hpr by done. by eapply Hps.
  - by rewrite lookup_app_r, Nat.sub_diag.
  - exists []. rewrite lookup_app_r by lia.
    replace (S (length (promises w)) - length (promises w))%nat with 1%nat by lia.
    repeat split; [done|]. intros _. apply elem_of_app. right.
    by apply list_elem_of_singleton.
  - apply Forall_app. split.
    + eapply Forall_impl; [exact Hjs|]. by left.
    + constructor; [by right|done].
  - apply Forall_app. split.
    + eapply Forall_impl; [exact Hts|]. by left.
    + constructor; [by right|done].
  - apply elem_of_app. right. by apply list_elem_of_singleton.
Qed.

(** A call leaves the world well formed. *)
Lemma squareAsync_well_formed n w :
  well_formed w → well_formed (snd (squareAsync n w)).
Proof.
  intros Hw. destruct (Number.lt n (Number.of_Z 0)) eqn:Hlt.
  - unfold squareAsync, async_call, squareAsync_body.
    destruct (new_promise w) as [p w0] eqn:Hnew. rewrite Hlt.
    injection Hnew as <- <-. simpl.
    rewrite (settle_new_promise w). destruct Hw as [Hps Hjs Hts].
    split; simpl; rewrite length_app; simpl.
    + intros i pr Hi Hpr.
      destruct (decide (i < length (promises w))%nat) as [Hlt'|Hge].
      * rewrite lookup_app_l in Hpr by done.
        eapply Forall_impl; [by eapply Hps|]. simpl. lia.
      * rewrite lookup_app_r in Hpr by lia.
        destruct (i - length (promises w))%nat; [|done].
        injection Hpr as <-. constructor.
    + eapply Forall_impl; [exact Hjs|]. intros [] ?; simpl in *; lia.
    + eapply Forall_impl; [exact Hts|].
      intros tm. unfold older_timer. destruct (callback tm). lia.
  - rewrite squareAsync_not_negative by done. simpl.
    destruct Hw as [Hps Hjs Hts].
    split; simpl; rewrite length_app; simpl.
    + intros i pr Hi Hpr.
      destruct (decide (i < length (promises w))%nat) as [Hlt'|Hge].
      * rewrite lookup_app_l in Hpr by done.
        eapply Forall_impl; [by eapply Hps|]. simpl. lia.
      * rewrite lookup_app_r in Hpr by lia.
        destruct (i - length (promises w))%nat as [|[|k]]; [| |done];
          injection Hpr as <-; constructor.
    + apply Forall_app. split.
      * eapply Forall_impl; [exact Hjs|]. intros [] ?; simpl in *; lia.
      * constructor; [simpl; lia|done].
    + apply Forall_app. split.
      * eapply Forall_impl; [exact Hts|].
        intros tm. unfold older_timer. destruct (callback tm). lia.
      * constructor; [unfold older_timer; simpl; lia|done].
Qed.

(** Calls and the passing of time lead to well-formed worlds only. *)
Lemma reachable_well_formed w : reachable w → well_formed w.
Proof.
  induction 1 as [now|n w _ IH|t w _ IH].
  - apply well_formed_fresh.
  - by apply squareAsync_well_formed.
  - by apply advance_well_formed.
Qed.

(** C2. For a number [n >= 0], in a well-formed world (one reached from a
    fresh one by calls and by time passing, for instance), [squareAsync n]
    returns a pending promise and registers one timer, 1000 time units
    ahead. Run up to any time before that, the promise is still pending;
    run up to that time or any later one, it is fulfilled with [n * n]. At
    no time is it rejected. *)
Theorem squareAsync_nonnegative_fulfilled (n : number) (w : World) :
  Number.ge n (Number.of_Z 0) = true → well_formed w →
  ∃ p w',
    squareAsync n w = (Normal p, w') ∧
    state_of p w' = Some Pending ∧
    timers w'
      = timers w ++ [mkTimer (clock w + 1000) (ResolveSquare (S p) n)] ∧
    (∀ t, state_of p (advance t w')
            = Some (if t <? clock w + 1000 then Pending
                    else Fulfilled (Number.mul n n))) ∧
    (∀ t e, state_of p (advance t w') ≠ Some (Rejected e)).
Proof.
  intros Hge Hw. apply ge_0_not_lt_0 in Hge.
  rewrite (squareAsync_not_negative n w Hge).
  pose proof (squareAsync_Waiting n w Hw) as Hstart.
  set (b := length (promises w)) in *.
  set (d := clock w + 1000) in *.
  set (w' := set_jobs _ _) in *.
  exists b, w'.
  assert (∀ t, state_of b (advance t w')
               = Some (if t <? d then Pending else Fulfilled (Number.mul n n)))
    as Hstate.
  { intros t. unfold advance, state_of. simpl.
    destruct (expire_Waiting b n d t (length (timers (run_jobs w'))) (run_jobs w'))
      as (Hempty & Hlate & Hearly).
    - by apply drain_Waiting.
    - apply run_jobs_empties.
    - done.
    - destruct (Z.ltb_spec t d) as [Hlt|Hle].
      + destruct (Hearly Hlt) as [_ _ Houter _ _ _ _]. by rewrite Houter.
      + destruct (Hlate Hle) as [_ _ _ [Hdone|[_ Hin]] _ _].
        * by rewrite Hdone.
        * rewrite Hempty in Hin. by apply elem_of_nil in Hin. }
  split; [done|]. split; [|split; [done|split; [done|]]].
  - destruct Hstart as [_ _ Houter _ _ _ _]. unfold state_of. by rewrite Houter.
  - intros t e. rewrite Hstate. by destruct (t <? d).
Qed.

Lemma squareAsync_nonnegative_fulfilled_witness :
  ∃ p w',
    squareAsync (Number.of_Z 5) (fresh 0) = (Normal p, w') ∧
    state_of p w' = Some Pending ∧
    timers w'
      = timers (fresh 0)
          ++ [mkTimer (clock (fresh 0) + 1000) (ResolveSquare (S p) (Number.of_Z 5))] ∧
    (∀ t, state_of p (advance t w')
            = Some (if t <? clock (fresh 0) + 1000 then Pending
                    else Fulfilled (Number.mul (Number.of_Z 5) (Number.of_Z 5)))) ∧
    (∀ t e, state_of p (advance t w') ≠ Some (Rejected e)).
Proof.
  apply (squareAsync_nonnegative_fulfilled (Number.of_Z 5) (fresh 0)).
  - reflexivity.
  - split; simpl; [intros i pr Hi; lia|constructor|constructor].
Defined.

(** * Further properties *)

(** ** formatString *)

Ltac case_bounds :=
  unfold ascii_case, ascii_upper, ascii_lower;
  repeat match goal with
    | |- context [(?x <=? ?y)%N] => destruct (N.leb_spec x y); simpl in *
    | |- context [(?x <? ?y)%N] => destruct (N.ltb_spec x y); simpl in *
    | H : context [(?x <? ?y)%N] |- _ => destruct (N.ltb_spec x y); simpl in *
    end;
  try done; try lia.

Lemma ascii_case_twice (b1 b2 : bool) (c : N) :
  ascii_case b2 (ascii_case b1 c) = ascii_case b2 c.
Proof. destruct b1, b2; case_bounds. Qed.

Lemma ascii_case_ascii (b : bool) (c : N) :
  (c <? 128)%N = true → (ascii_case b c <? 128)%N = true.
Proof. intros Hc. destruct b; case_bounds. Qed.

Lemma is_ascii_map_case (b : bool) (s : jsstring) :
  is_ascii s = true → is_ascii (map (ascii_case b) s) = true.
Proof.
  unfold is_ascii. induction s as [|c s IH]; simpl; [done|].
  intros [Hc Hs]%andb_prop. rewrite ascii_case_ascii by done. by apply IH.
Qed.

Lemma formatString_ascii U L (input : jsstring) (toUpper : option bool) :
  is_ascii input = true →
  formatString U L input toUpper = map (ascii_case (default true toUpper)) input.
Proof.
  intros Hascii. unfold formatString, String_toUpperCase, String_toLowerCase.
  rewrite Hascii. by destruct (default true toUpper).
Qed.

(** X1. Formatting an ASCII string a second time gives what the second
    flag alone gives: the first conversion leaves no trace, and formatting
    is idempotent. *)
Theorem formatString_last_flag_wins U L (input : jsstring)
    (first second : option bool) :
  is_ascii input = true →
  formatString U L (formatString U L input first) second
    = formatString U L input second.
Proof.
  intros Hascii.
  rewrite (formatString_ascii U L input first Hascii).
  rewrite formatString_ascii by (by apply is_ascii_map_case).
  rewrite (formatString_ascii U L input second Hascii).
  rewrite map_map. apply map_ext. intros c. apply ascii_case_twice.
Qed.

Lemma formatString_last_flag_wins_witness :
  formatString id id (formatString id id (js "Hello, World") (Some false)) None
    = formatString id id (js "Hello, World") None.
Proof.
  apply (formatString_last_flag_wins id id (js "Hello, World") (Some false) None).
  reflexivity.
Defined.

(** X2. On an ASCII string the result has the length of the input, is ASCII
    again, and holds no lower-case letter when [toUpper] is true or left
    out, no upper-case letter when it is false. *)
Theorem formatString_ascii_shape U L (input : jsstring) (toUpper : option bool) :
  is_ascii input = true →
  length (formatString U L input toUpper) = length input ∧
  is_ascii (formatString U L input toUpper) = true ∧
  Forall (fun c => if default true toUpper
                   then ¬ (97 ≤ c ≤ 122)%N
                   else ¬ (65 ≤ c ≤ 90)%N)
    (formatString U L input toUpper).
Proof.
  intros Hascii. rewrite (formatString_ascii U L input toUpper Hascii).
  split; [by rewrite length_map|]. split; [by apply is_ascii_map_case|].
  apply Forall_fmap, Forall_forall. intros c _. simpl.
  destruct (default true toUpper); case_bounds.
Qed.

Lemma formatString_ascii_shape_witness :
  length (formatString id id (js "abc") None) = length (js "abc") ∧
  is_ascii (formatString id id (js "abc") None) = true ∧
  Forall (fun c => if default true None
                   then ¬ (97 ≤ c ≤ 122)%N
                   else ¬ (65 ≤ c ≤ 90)%N)
    (formatString id id (js "abc") None).
Proof.
  apply (formatString_ascii_shape id id (js "abc") None). reflexivity.
Defined.

(** X3. Two ASCII strings have the same upper-case form exactly when they
    have the same lower-case form: either call compares strings without
    regard to case. *)
Theorem formatString_same_upper_iff_same_lower U L (s t : jsstring) :
  is_ascii s = true → is_ascii t = true →
  formatString U L s (Some true) = formatString U L t (Some true) ↔
  formatString U L s (Some false) = formatString U L t (Some false).
Proof.
  intros Hs Ht. rewrite !formatString_ascii by done. simpl.
  split; intros Heq.
  - rewrite <- (map_ext _ _ (ascii_case_twice true false) s).
    rewrite <- (map_ext _ _ (ascii_case_twice true false) t).
    rewrite <- !(map_map (ascii_case true) (ascii_case false)).
    by rewrite Heq.
  - rewrite <- (map_ext _ _ (ascii_case_twice false true) s).
    rewrite <- (map_ext _ _ (ascii_case_twice false true) t).
    rewrite <- !(map_map (ascii_case false) (ascii_case true)).
    by rewrite Heq.
Qed.

Lemma formatString_same_upper_iff_same_lower_witness :
  formatString id id (js "Rocq") (Some true)
    = formatString id id (js "rOCQ") (Some true) ↔
  formatString id id (js "Rocq") (Some false)
    = formatString id id (js "rOCQ") (Some false).
Proof.
  apply (formatString_same_upper_iff_same_lower id id (js "Rocq") (js "rOCQ"));
    reflexivity.
Defined.

(** ** filterByRating *)

Lemma filterByRating_keeps_high items :
  Forall rated_high items → filterByRating items = items.
Proof.
  induction 1 as [|item items Hitem _ IH]; [done|].
  rewrite filterByRating_cons. unfold rated_high in Hitem.
  by rewrite Hitem, IH.
Qed.

(** X4. Filtering a concatenation is concatenating the filtered parts: the
    decision on an item does not depend on the items around it. *)
Theorem filterByRating_app (front back : list RatedItem) :
  filterByRating (front ++ back) = filterByRating front ++ filterByRating back.
Proof.
  induction front as [|item front IH]; [done|].
  rewrite <- app_comm_cons, !filterByRating_cons, IH.
  by destruct (Number.ge _ _).
Qed.

Lemma present_dense {A} (l : list A) : Sparse.present (Sparse.dense l) = l.
Proof. induction l as [|x l IH]; simpl; [done|]. by rewrite IH. Qed.

Lemma dense_present {A} (arr : list (option A)) :
  Sparse.dense (Sparse.present arr) = arr ↔ Forall is_Some arr.
Proof.
  induction arr as [|[x|] arr IH]; simpl.
  - split; [constructor|done].
  - rewrite Forall_cons. split.
    + intros [= Heq]. split; [by eexists|]. by apply IH.
    + intros [_ Hall]. f_equal. by apply IH.
  - rewrite Forall_cons. split.
    + intros Heq. apply (f_equal length) in Heq.
      unfold Sparse.dense in Heq. rewrite length_map in Heq. simpl in Heq.
      assert (length (Sparse.present arr) ≤ length arr)%nat; [|lia].
      clear. induction arr as [|[x|] arr IH]; simpl; lia.
    + by intros [[x [=]] _].
Qed.

(** Filtering an array with holes is filtering the elements it has. *)
Lemma Sparse_filterByRating_present (items : list (option RatedItem)) :
  Sparse.filterByRating items
    = Sparse.dense (filterByRating (Sparse.present items)).
Proof.
  induction items as [|[item|] items IH]; [done| |exact IH].
  change (Sparse.filterByRating (Some item :: items))
    with (if Number.ge (rating item) (Number.of_Z 4)
          then Some item :: Sparse.filterByRating items
          else Sparse.filterByRating items).
  change (Sparse.present (Some item :: items))
    with (item :: Sparse.present items).
  rewrite filterByRating_cons, IH. by destruct (Number.ge _ _).
Qed.

(** X5. Filtering is idempotent, on an array with holes too. The result is
    the input unchanged exactly when the input has no hole and every item is
    rated 4 or more; on an array without holes the result is the one of the
    function on sequences. *)
Theorem filterByRating_idempotent_unchanged (items : list (option RatedItem)) :
  Sparse.filterByRating (Sparse.filterByRating items)
    = Sparse.filterByRating items ∧
  (Sparse.filterByRating items = items ↔
   Forall (fun i => ∃ item, i = Some item ∧ rated_high item) items) ∧
  (∀ l, Sparse.filterByRating (Sparse.dense l) = Sparse.dense (filterByRating l)).
Proof.
  split; [|split].
  - rewrite !Sparse_filterByRating_present, present_dense.
    by rewrite filterByRating_keeps_high by apply filterByRating_all_high.
  - rewrite Sparse_filterByRating_present. split.
    + intros Heq.
      assert (Forall is_Some items) as Hsome.
      { rewrite <- Heq. unfold Sparse.dense. apply Forall_fmap, Forall_true.
        intros x. by eexists. }
      apply dense_present in Hsome as Hdense.
      rewrite <- Hdense in Heq at 2.
      apply (f_equal Sparse.present) in Heq. rewrite !present_dense in Heq.
      pose proof (filterByRating_all_high (Sparse.present items)) as Hhigh.
      rewrite Heq in Hhigh. rewrite <- Hdense.
      unfold Sparse.dense. apply Forall_fmap.
      eapply Forall_impl; [exact Hhigh|]. intros item Hitem. by exists item.
    + intros Hall.
      assert (Forall is_Some items) as Hsome.
      { eapply Forall_impl; [exact Hall|]. intros i (item & -> & _). by eexists. }
      apply dense_present in Hsome as Hdense.
      rewrite filterByRating_keeps_high; [done|].
      rewrite <- Hdense in Hall. unfold Sparse.dense in Hall.
      rewrite Forall_fmap in Hall.
      eapply Forall_impl; [exact Hall|]. simpl. by intros item (? & [= <-] & ?).
  - intros l. by rewrite Sparse_filterByRating_present, present_dense.
Qed.

(** X6. An item whose rating is NaN is never kept: NaN fails [>= 4] like
    every comparison. The result is empty exactly when no item is rated 4
    or more. *)
Theorem filterByRating_NaN_and_empty (items : list RatedItem) :
  (∀ item, Number.is_nan (rating item) = true → item ∉ filterByRating items) ∧
  (filterByRating items = [] ↔ Forall (fun item => ¬ rated_high item) items).
Proof.
  split.
  - intros item Hnan Hin.
    pose proof (filterByRating_all_high items) as Hall.
    rewrite Forall_forall in Hall. specialize (Hall item Hin).
    unfold rated_high in Hall. by destruct (rating item).
  - induction items as [|item items IH]; [by split|].
    rewrite filterByRating_cons, Forall_cons. unfold rated_high at 1.
    destruct (Number.ge _ _).
    + split; [done|]. by intros [? _].
    + rewrite IH. split; [done|]. by intros [_ ?].
Qed.

(** ** concatenateArrays *)

Lemma Sparse_FlattenIntoArray_cons {T} depth (entry : option (Sparse.Elem T)) rest :
  Sparse.FlattenIntoArray depth (entry :: rest) =
    match entry with
    | None => Sparse.FlattenIntoArray depth rest
    | Some element =>
        match depth, element with
        | S d, Sparse.Arr xs =>
            Sparse.FlattenIntoArray d xs ++ Sparse.FlattenIntoArray depth rest
        | _, _ => Some element :: Sparse.FlattenIntoArray depth rest
        end
    end.
Proof. by destruct depth. Qed.

Lemma Sparse_FlattenIntoArray_0 {T} (source : list (option (Sparse.Elem T))) :
  Sparse.FlattenIntoArray 0 source = Sparse.dense (Sparse.present source).
Proof.
  induction source as [|[element|] rest IH]; [done| |].
  - rewrite Sparse_FlattenIntoArray_cons, IH. done.
  - by rewrite Sparse_FlattenIntoArray_cons, IH.
Qed.

(** Each argument gives the elements it has, in order. *)
Lemma Sparse_concatenateArrays_cons {T}
    (first : list (option (Sparse.Elem T))) rest :
  Sparse.concatenateArrays (first :: rest)
    = Sparse.dense (Sparse.present first) ++ Sparse.concatenateArrays rest.
Proof.
  unfold Sparse.concatenateArrays, Sparse.Array_flat, Sparse.dense.
  rewrite !fmap_cons, Sparse_FlattenIntoArray_cons, Sparse_FlattenIntoArray_0.
  done.
Qed.

Lemma Sparse_concatenateArrays_app {T}
    (front back : list (list (option (Sparse.Elem T)))) :
  Sparse.concatenateArrays (front ++ back)
    = Sparse.concatenateArrays front ++ Sparse.concatenateArrays back.
Proof.
  induction front as [|first front IH]; [done|].
  rewrite <- app_comm_cons, !Sparse_concatenateArrays_cons, IH.
  by rewrite app_assoc.
Qed.

Lemma Sparse_concatenateArrays_is_dense {T}
    (arrays : list (list (option (Sparse.Elem T)))) :
  Sparse.dense (Sparse.present (Sparse.concatenateArrays arrays))
    = Sparse.concatenateArrays arrays.
Proof.
  apply dense_present.
  induction arrays as [|first rest IH]; [constructor|].
  rewrite Sparse_concatenateArrays_cons. apply Forall_app. split; [|done].
  unfold Sparse.dense. apply Forall_fmap, Forall_true. intros x. by eexists.
Qed.

Lemma elem_of_dense_present {A} (x : A) (arr : list (option A)) :
  Some x ∈ Sparse.dense (Sparse.present arr) ↔ Some x ∈ arr.
Proof.
  induction arr as [|[y|] arr IH]; simpl; [done| |].
  - rewrite !elem_of_cons, IH. done.
  - rewrite elem_of_cons, IH. split; [by right|]. by intros [[=]|?].
Qed.

(** On arrays without holes, at every level, this is the function on
    sequences. *)
Lemma Sparse_concatenateArrays_dense {T} (arrays : list (list (Elem T))) :
  Sparse.concatenateArrays
    (map (fun a => Sparse.dense (map of_dense a)) arrays)
    = Sparse.dense (map of_dense (concatenateArrays arrays)).
Proof.
  induction arrays as [|first rest IH]; [done|].
  rewrite map_cons, Sparse_concatenateArrays_cons, concatenateArrays_cons.
  rewrite IH, present_dense. unfold Sparse.dense. by rewrite !map_app.
Qed.

(** X7. The result has no hole, and nothing else is lost or added: its
    length is the number of elements the arguments have (the indices that
    do not exist in an argument are not counted) and its elements are
    exactly the elements of the arguments. For arguments without holes the
    length is the sum of their lengths, and the result is the one of the
    function on sequences. *)
Theorem concatenateArrays_present_elements {T}
    (arrays : list (list (option (Sparse.Elem T)))) :
  Forall is_Some (Sparse.concatenateArrays arrays) ∧
  length (Sparse.concatenateArrays arrays)
    = sum_list_with (fun a => length (Sparse.present a)) arrays ∧
  (∀ e, Some e ∈ Sparse.concatenateArrays arrays ↔
        ∃ a, a ∈ arrays ∧ Some e ∈ a) ∧
  (Forall (Forall is_Some) arrays →
   length (Sparse.concatenateArrays arrays) = sum_list_with length arrays) ∧
  (∀ l : list (list (Elem T)),
     Sparse.concatenateArrays (map (fun a => Sparse.dense (map of_dense a)) l)
       = Sparse.dense (map of_dense (concatenateArrays l))).
Proof.
  split; [|split; [|split; [|split]]]; [| | | |apply Sparse_concatenateArrays_dense].
  - apply dense_present, Sparse_concatenateArrays_is_dense.
  - induction arrays as [|first rest IH]; [done|].
    rewrite Sparse_concatenateArrays_cons, length_app, IH.
    unfold Sparse.dense. by rewrite length_map.
  - induction arrays as [|first rest IH]; intros e.
    + split; [by intros ?%elem_of_nil|]. by intros (a & ?%elem_of_nil & _).
    + rewrite Sparse_concatenateArrays_cons, elem_of_app, IH,
        elem_of_dense_present.
      split.
      * intros [Hin|(a & Ha & Hin)].
        -- exists first. split; [by left|done].
        -- exists a. split; [by right|done].
      * intros (a & Ha & Hin). apply elem_of_cons in Ha as [->|Ha].
        -- by left.
        -- right. by exists a.
  - induction 1 as [|first rest Hfirst _ IH]; [done|].
    rewrite Sparse_concatenateArrays_cons, length_app, IH.
    apply dense_present in Hfirst. by rewrite Hfirst.
Qed.

(** X8. Calls compose: concatenating the results of two calls is one call
    on all the arrays, and the result for [front] followed by [back] is the
    two results appended. A single argument comes back with its holes
    closed up, so it comes back as it is exactly when it has no hole. *)
Theorem concatenateArrays_calls_compose {T}
    (front back : list (list (option (Sparse.Elem T))))
    (one : list (option (Sparse.Elem T))) :
  Sparse.concatenateArrays
    [Sparse.concatenateArrays front; Sparse.concatenateArrays back]
    = Sparse.concatenateArrays (front ++ back) ∧
  Sparse.concatenateArrays (front ++ back)
    = Sparse.concatenateArrays front ++ Sparse.concatenateArrays back ∧
  Sparse.concatenateArrays [one] = Sparse.dense (Sparse.present one) ∧
  (Sparse.concatenateArrays [one] = one ↔ Forall is_Some one).
Proof.
  assert (Sparse.concatenateArrays [one] = Sparse.dense (Sparse.present one))
    as Hone.
  { rewrite Sparse_concatenateArrays_cons. apply app_nil_r. }
  split; [|split; [|split]].
  - rewrite !Sparse_concatenateArrays_cons, !Sparse_concatenateArrays_is_dense.
    rewrite Sparse_concatenateArrays_app.
    unfold Sparse.concatenateArrays at 3. simpl. by rewrite app_nil_r.
  - apply Sparse_concatenateArrays_app.
  - done.
  - rewrite Hone. apply dense_present.
Qed.

(** ** Integers as numbers, with their sign *)

Lemma binary_round_int (s : bool) (m : positive) :
  Z.pos m < 2 ^ 53 →
  ∃ M, binary_round Number.prec Number.emax s m 0
         = S754_finite s M (Z.pos (digits2_pos m) - 53) ∧
       digits2_pos M = 53%positive ∧
       Z.pos M = Z.pos m * 2 ^ (53 - Z.pos (digits2_pos m)).
Proof.
  intros Hm. pose proof (digits2_pos_le_53 m Hm) as Hd.
  unfold binary_round, shl_align, fexp, emin, Number.prec, Number.emax.
  replace (Z.max (Z.pos (digits2_pos m) + 0 - 53) (3 - 1024 - 53) - 0)
    with (Z.pos (digits2_pos m) - 53) by lia.
  replace (Z.max (Z.pos (digits2_pos m) + 0 - 53) (3 - 1024 - 53))
    with (Z.pos (digits2_pos m) - 53) by lia.
  destruct (Z.pos (digits2_pos m) - 53) as [|k|k] eqn:Hk; [|lia|].
  - exists m. split; [apply binary_round_aux_53; lia|].
    split; [lia|]. replace (53 - Z.pos (digits2_pos m)) with 0 by lia. lia.
  - exists (Pos.iter xO m k). split; [|split].
    + apply binary_round_aux_53; [|lia]. rewrite digits2_pos_shift. lia.
    + rewrite digits2_pos_shift. lia.
    + change (Pos.iter xO m k) with (shift_pos k m).
      rewrite shift_pos_correct, Z.pow_pos_fold.
      replace (53 - Z.pos (digits2_pos m)) with (Z.pos k) by lia. lia.
Qed.

Lemma of_Z_signed_exact (z : Z) :
  Z.abs z < 2 ^ 53 → Number.to_Z (Number.of_Z z) = Some z.
Proof.
  intros Hz. destruct z as [|m|m]; [done| |].
  - apply of_Z_exact. lia.
  - unfold Number.of_Z, binary_normalize.
    destruct (binary_round_int true m) as (M & -> & HM & Hval); [lia|].
    pose proof (digits2_pos_le_53 m ltac:(lia)) as Hd.
    unfold Number.to_Z.
    destruct (Z.pos (digits2_pos m) - 53) as [|k|k] eqn:Hk; [|lia|].
    + replace (53 - Z.pos (digits2_pos m)) with 0 in Hval by lia.
      simpl in *. f_equal. lia.
    + replace (53 - Z.pos (digits2_pos m)) with (Z.pos k) in Hval by lia.
      rewrite Hval, Z.pow_pos_fold, Z_mod_mult, Z_div_mult_full; [done|].
      apply Z.neq_sym, Z.lt_neq, Z.pow_pos_nonneg; lia.
Qed.

(** Doubling a number with a full mantissa raises its exponent by one. *)
Lemma mul_2_normal (s : bool) (M : positive) (e : Z) :
  digits2_pos M = 53%positive → -1074 ≤ e ≤ 970 →
  Number.mul (S754_finite s M e) (Number.of_Z 2) = S754_finite s M (e + 1).
Proof.
  intros HM He.
  change (Number.of_Z 2) with (S754_finite false 4503599627370496 (-51)).
  unfold Number.mul, SFmul. rewrite xorb_false_r, Pos.mul_comm.
  assert (shr_fexp Number.prec Number.emax (Z.pos (4503599627370496 * M))
            (e + -51) loc_Exact
          = ({| shr_m := Z.pos M; shr_r := false; shr_s := false |}, e + 1))
    as Hshr.
  { change (4503599627370496 * M)%positive with (Pos.iter xO M 52).
    unfold shr_fexp, fexp, emin, Number.prec, Number.emax, Zdigits2.
    rewrite digits2_pos_shift, HM.
    replace (Z.max (Z.pos (53 + 52) + (e + -51) - 53) (3 - 1024 - 53)
             - (e + -51)) with 52 by lia.
    unfold shr. f_equal; first [lia|reflexivity]. }
  unfold binary_round_aux. rewrite Hshr. simpl.
  assert (shr_fexp Number.prec Number.emax (Z.pos M) (e + 1) loc_Exact
          = ({| shr_m := Z.pos M; shr_r := false; shr_s := false |}, e + 1))
    as Hshr'.
  { unfold shr_fexp, fexp, emin, Number.prec, Number.emax. simpl Zdigits2.
    rewrite HM.
    replace (Z.max (53 + (e + 1) - 53) (3 - 1024 - 53) - (e + 1)) with 0 by lia.
    reflexivity. }
  rewrite Hshr'. simpl. unfold Number.emax, Number.prec.
  destruct (Z.leb_spec (e + 1) (1024 - 53)); [done|lia].
Qed.

Lemma of_Z_double (z : Z) :
  Z.abs z < 2 ^ 52 →
  Number.mul (Number.of_Z z) (Number.of_Z 2) = Number.of_Z (2 * z).
Proof.
  intros Hz.
  assert (∀ s m, Z.pos m < 2 ^ 52 →
            Number.mul (binary_round Number.prec Number.emax s m 0) (Number.of_Z 2)
            = binary_round Number.prec Number.emax s (m~0) 0) as Hround.
  { intros s m Hm.
    destruct (binary_round_int s m) as (M & -> & HM & Hval); [lia|].
    destruct (binary_round_int s (m~0)) as (M' & -> & HM' & Hval'); [lia|].
    pose proof (digits2_pos_le_53 (m~0) ltac:(lia)) as Hd.
    simpl digits2_pos in *. rewrite Pos2Z.inj_succ in *.
    rewrite mul_2_normal by (done || lia).
    assert (M = M') as <-.
    { apply Pos2Z.inj. rewrite Hval, Hval'.
      replace (53 - Z.pos (digits2_pos m))
        with (Z.succ (53 - Z.succ (Z.pos (digits2_pos m)))) by lia.
      rewrite Z.pow_succ_r by lia. lia. }
    f_equal. lia. }
  destruct z as [|m|m]; [done| |]; apply Hround; lia.
Qed.

(** ** The sign of a product *)

Lemma shr_1_nonneg (mrs : shr_record) : 0 ≤ shr_m mrs → 0 ≤ shr_m (shr_1 mrs).
Proof.
  destruct mrs as [m r s]. simpl. intros Hm.
  destruct m as [|[p|p|]|p]; simpl; lia.
Qed.

Lemma iter_pos_invariant {A} (P : A → Prop) (f : A → A) :
  (∀ x, P x → P (f x)) → ∀ p x, P x → P (SpecFloat.iter_pos f p x).
Proof.
  intros Hf. induction p as [p IH|p IH|]; intros x Hx; simpl.
  - by apply IH, IH, Hf.
  - by apply IH, IH.
  - by apply Hf.
Qed.

Lemma shr_fexp_nonneg (m e : Z) (l : location) :
  0 ≤ m → 0 ≤ shr_m (fst (shr_fexp Number.prec Number.emax m e l)).
Proof.
  intros Hm. unfold shr_fexp, shr.
  assert (0 ≤ shr_m (shr_record_of_loc m l)) as H0
    by (by destruct l as [|[]]).
  destruct (fexp _ _ _ - e) as [|p|p]; simpl; try done.
  by apply (iter_pos_invariant (fun mrs => 0 ≤ shr_m mrs)), H0; apply shr_1_nonneg.
Qed.

(** Rounding a positive mantissa gives a zero, a finite number or an
    infinity of the given sign, never NaN. *)
Lemma binary_round_aux_signed (s : bool) (m : positive) (e : Z) :
  match binary_round_aux Number.prec Number.emax s (Z.pos m) e loc_Exact with
  | S754_zero s' | S754_infinity s' | S754_finite s' _ _ => s' = s
  | S754_nan => False
  end.
Proof.
  unfold binary_round_aux.
  pose proof (shr_fexp_nonneg (Z.pos m) e loc_Exact ltac:(lia)) as H1.
  destruct (shr_fexp _ _ (Z.pos m) e loc_Exact) as [mrs' e'].
  simpl in H1.
  assert (0 ≤ round_nearest_even (shr_m mrs') (loc_of_shr_record mrs')) as Hr.
  { unfold round_nearest_even.
    destruct (loc_of_shr_record mrs') as [|[]]; try done;
      try destruct (Z.even _); lia. }
  pose proof (shr_fexp_nonneg _ e' loc_Exact Hr) as H2.
  destruct (shr_fexp _ _ (round_nearest_even _ _) e' loc_Exact) as [mrs'' e''].
  simpl in H2. destruct (shr_m mrs'') as [|p|p]; [done| |lia].
  by destruct (e'' <=? _).
Qed.

(** A square is never negative, and is NaN for NaN only. *)
Lemma square_nonneg (n : number) :
  Number.comparable n → Number.ge (Number.mul n n) (Number.of_Z 0) = true.
Proof.
  unfold Number.comparable. destruct n as [s|s| |s m e]; try done.
  - by destruct s.
  - intros _. unfold Number.mul, SFmul. rewrite xorb_nilpotent.
    pose proof (binary_round_aux_signed false (m * m) (e + e)) as Hsign.
    by destruct (binary_round_aux _ _ _ _ _ _) as [[]|[]| |[] ? ?].
Qed.

(** A double has the sign of the number doubled, and is NaN for NaN only. *)
Lemma double_signed (n : number) :
  Number.is_nan (Number.mul n (Number.of_Z 2)) = Number.is_nan n ∧
  (Number.ge n (Number.of_Z 0) = true →
   Number.ge (Number.mul n (Number.of_Z 2)) (Number.of_Z 0) = true) ∧
  (Number.le n (Number.of_Z 0) = true →
   Number.le (Number.mul n (Number.of_Z 2)) (Number.of_Z 0) = true).
Proof.
  change (Number.of_Z 2) with (S754_finite false 4503599627370496 (-51)).
  destruct n as [s|s| |s m e]; try done.
  - by destruct s.
  - unfold Number.mul, SFmul. rewrite xorb_false_r.
    pose proof (binary_round_aux_signed s (m * 4503599627370496) (e + -51))
      as Hsign.
    destruct (binary_round_aux _ _ _ _ _ _) as [s'|s'| |s' ? ?];
      try done; subst s'; by destruct s.
Qed.

(** ** processValue, further *)

(** X9. On a value of its declared type, a string or a number, the call
    never fails. Among the primitive values (strings, numbers, booleans,
    [null], [undefined], bigints and symbols; objects are not covered) it
    fails for the bigints and the symbols only, and then with TypeError. *)
Theorem processValue_primitive_throws_iff (v : Value) :
  (typeof v = Tstring ∨ typeof v = Tnumber → ∃ r, processValue v = Normal r) ∧
  (∀ e, processValue v = Throw e ↔
        e = TypeError ∧ (typeof v = Tbigint ∨ typeof v = Tsymbol)).
Proof.
  split.
  - destruct v as [s|n|b| | |z|d]; simpl; intros [|]; try done; by eexists.
  - intros e. destruct v as [s|n|b| | |z|d]; simpl; split;
      try (by intros [_ [|]]); try done.
    + intros [= <-]. split; [done|by left].
    + by intros [-> _].
    + intros [= <-]. split; [done|by right].
    + by intros [-> _].
Qed.

(** X10. An integer below 2^52 in magnitude is doubled exactly: the result
    is the number of the doubled integer. *)
Theorem processValue_doubles_integers (z : Z) :
  Z.abs z < 2 ^ 52 →
  processValue (VNumber (Number.of_Z z)) = Normal (Number.of_Z (2 * z)).
Proof. intros Hz. simpl. f_equal. by apply of_Z_double. Qed.

Lemma processValue_doubles_integers_witness :
  processValue (VNumber (Number.of_Z (-21))) = Normal (Number.of_Z (2 * -21)).
Proof. apply (processValue_doubles_integers (-21)). simpl. lia. Defined.

(** X11. On a number the result is NaN for NaN only, and it never has the
    other sign: a number that is at least 0 gives a result that is at
    least 0, a number that is at most 0 a result that is at most 0. *)
Theorem processValue_number_sign (n : number) :
  ∃ r, processValue (VNumber n) = Normal r ∧
       Number.is_nan r = Number.is_nan n ∧
       (Number.ge n (Number.of_Z 0) = true → Number.ge r (Number.of_Z 0) = true) ∧
       (Number.le n (Number.of_Z 0) = true → Number.le r (Number.of_Z 0) = true).
Proof.
  exists (Number.mul n (Number.of_Z 2)). split; [done|]. apply double_signed.
Qed.

(** ** Vehicle and Car, further *)

Lemma Number_toString_integer (shortest_digits : number → jsstring) (z : Z) :
  Z.abs z < 2 ^ 53 →
  Number_toString shortest_digits (Number.of_Z z)
    = js (NilZero.string_of_int (Z.to_int z)).
Proof.
  intros Hz. pose proof (of_Z_signed_exact z Hz) as Hexact.
  destruct z as [|m|m]; [done| |].
  - unfold Number.of_Z, binary_normalize in *.
    destruct (binary_round_int false m) as (M & HM & _); [lia|].
    rewrite HM in *. unfold Number_toString. rewrite Hexact.
    by destruct (Z.ltb_spec (Z.abs (Z.pos m)) (2 ^ 53)); [|lia].
  - unfold Number.of_Z, binary_normalize in *.
    destruct (binary_round_int true m) as (M & HM & _); [lia|].
    rewrite HM in *. unfold Number_toString. rewrite Hexact.
    by destruct (Z.ltb_spec (Z.abs (Z.neg m)) (2 ^ 53)); [|lia].
Qed.

(** X12. For a year that is an integer below 2^53 in magnitude, negative
    years included, [getInfo] prints the year in decimal, on a vehicle and
    on a car alike, whatever prints the other numbers. *)
Theorem getInfo_integer_year (shortest_digits : number → jsstring)
    (make model : jsstring) (y : Z) :
  Z.abs y < 2 ^ 53 →
  Vehicle_getInfo shortest_digits (new_Vehicle make (Number.of_Z y))
    = js "Make: " ++ make ++ js ", Year: "
        ++ js (NilZero.string_of_int (Z.to_int y)) ∧
  Car_getInfo shortest_digits (new_Car make (Number.of_Z y) model)
    = js "Make: " ++ make ++ js ", Year: "
        ++ js (NilZero.string_of_int (Z.to_int y)).
Proof.
  intros Hy. unfold Car_getInfo, Vehicle_getInfo. simpl.
  by rewrite Number_toString_integer.
Qed.

Lemma getInfo_integer_year_witness :
  Vehicle_getInfo (fun _ => []) (new_Vehicle (js "Ford") (Number.of_Z (-44)))
    = js "Make: " ++ js "Ford" ++ js ", Year: "
        ++ js (NilZero.string_of_int (Z.to_int (-44))) ∧
  Car_getInfo (fun _ => []) (new_Car (js "Ford") (Number.of_Z (-44)) (js "T"))
    = js "Make: " ++ js "Ford" ++ js ", Year: "
        ++ js (NilZero.string_of_int (Z.to_int (-44))).
Proof.
  apply (getInfo_integer_year (fun _ => []) (js "Ford") (js "T") (-44)).
  simpl. lia.
Defined.

(** ** getMostExpensiveProduct, further *)

Lemma Sparse_getMostExpensiveProduct_present (products : list (option Product)) :
  Sparse.getMostExpensiveProduct products =
    match products, Sparse.present products with
    | [], _ => Normal None
    | _ :: _, [] => Throw TypeError
    | _ :: _, first :: rest => Normal (Some (fold_left dearer rest first))
    end.
Proof.
  assert (∀ arr : list (option Product),
            Sparse.Array_reduce dearer arr =
              match Sparse.present arr with
              | [] => Throw TypeError
              | first :: rest => Normal (fold_left dearer rest first)
              end) as Hreduce.
  { induction arr as [|[first|] arr IH]; [done| |exact IH].
    simpl. f_equal. clear. generalize first.
    induction arr as [|[item|] arr IH]; intros acc; simpl; [done| |]; apply IH. }
  destruct products as [|entry products]; [done|].
  unfold Sparse.getMostExpensiveProduct.
  change (length (entry :: products) =? 0)%nat with false. cbv iota.
  fold dearer. rewrite Hreduce.
  by destruct (Sparse.present (entry :: products)).
Qed.

Lemma present_nil_iff {A} (arr : list (option A)) :
  Sparse.present arr = [] ↔ Forall (eq None) arr.
Proof.
  induction arr as [|[x|] arr IH]; simpl.
  - split; [constructor|done].
  - split; [done|]. by intros [[=] _]%Forall_cons.
  - rewrite Forall_cons, IH. split; [done|by intros [_ ?]].
Qed.

Lemma elem_of_present {A} (x : A) (arr : list (option A)) :
  x ∈ Sparse.present arr ↔ Some x ∈ arr.
Proof.
  induction arr as [|[y|] arr IH]; simpl.
  - split; by intros ?%elem_of_nil.
  - rewrite !elem_of_cons, IH. split; intros [?|?]; (by right) || left; congruence.
  - rewrite elem_of_cons, IH. split; [by right|]. by intros [[=]|?].
Qed.

(** X13. The call fails in one case only, whatever the prices: on an array
    that has a length but no element at all (such as [new Array(3)]), where
    [reduce] has nothing to start from and raises TypeError. The result is
    [null] for the array of length 0 only; on every other array it is one
    of the products the array has. On an array without holes the call is
    the function on sequences, which never fails. *)
Theorem getMostExpensiveProduct_throws_iff_only_holes
    (products : list (option Product)) :
  ((products = [] ∧ Sparse.getMostExpensiveProduct products = Normal None) ∨
   (products ≠ [] ∧ Forall (eq None) products ∧
    Sparse.getMostExpensiveProduct products = Throw TypeError) ∨
   (∃ p, Sparse.getMostExpensiveProduct products = Normal (Some p) ∧
         Some p ∈ products)) ∧
  (∀ l, Sparse.getMostExpensiveProduct (Sparse.dense l)
          = getMostExpensiveProduct l ∧
        ∀ e, getMostExpensiveProduct l ≠ Throw e).
Proof.
  split.
  - rewrite Sparse_getMostExpensiveProduct_present.
    destruct products as [|entry products]; [by left|right].
    destruct (Sparse.present (entry :: products)) as [|first rest] eqn:Hpresent.
    + left. split; [done|]. split; [|done]. by apply present_nil_iff.
    + right. exists (fold_left dearer rest first). split; [done|].
      apply elem_of_present. rewrite Hpresent.
      destruct (fold_left_dearer_member rest first) as [->|[Hin _]].
      * by left.
      * by right.
  - intros l. split.
    + rewrite Sparse_getMostExpensiveProduct_present.
      destruct l as [|first rest]; [done|].
      change (Sparse.dense (first :: rest))
        with (Some first :: Sparse.dense rest).
      cbv beta iota.
      change (Sparse.present (Some first :: Sparse.dense rest))
        with (first :: Sparse.present (Sparse.dense rest)).
      by rewrite present_dense.
    + intros e. by destruct l.
Qed.

(** X14. A price that is NaN loses every comparison: the first product is
    returned when its price is NaN, whatever follows it, and a product
    priced NaN that is not the first one is never returned. *)
Theorem getMostExpensiveProduct_NaN (first : Product) (rest : list Product) :
  (Number.is_nan (price first) = true →
   getMostExpensiveProduct (first :: rest) = Normal (Some first)) ∧
  (∀ p, getMostExpensiveProduct (first :: rest) = Normal (Some p) →
        Number.is_nan (price p) = true → p = first).
Proof.
  rewrite getMostExpensiveProduct_cons. split.
  - intros Hnan. do 2 f_equal. revert Hnan. generalize first.
    induction rest as [|item rest IH]; intros acc Hnan; [done|].
    simpl. unfold dearer at 2, Number.gt, SFltb.
    destruct (price acc) eqn:Hacc; try done. simpl.
    apply IH. by rewrite Hacc.
  - intros p [= <-] Hnan.
    destruct (fold_left_dearer_member rest first) as [->|[_ Hno]]; [done|].
    congruence.
Qed.

Lemma dearer_priced a b : priced a → priced b → priced (dearer a b).
Proof. intros Ha Hb. unfold dearer. by destruct (Number.gt _ _). Qed.

Lemma dearer_assoc a b c :
  priced a → priced b → priced c →
  dearer (dearer a b) c = dearer a (dearer b c).
Proof.
  intros Ha Hb Hc. unfold dearer, Number.gt.
  fold (Number.lt (price a) (price b)). fold (Number.lt (price b) (price c)).
  destruct (Number.lt (price a) (price b)) eqn:Hab,
           (Number.lt (price b) (price c)) eqn:Hbc.
  - fold (Number.lt (price a) (price c)). fold (Number.lt (price b) (price c)).
    rewrite Hbc.
    by rewrite (le_lt_trans (price a) (price b) (price c))
      by (done || by apply lt_le).
  - fold (Number.lt (price b) (price c)). fold (Number.lt (price a) (price b)).
    by rewrite Hbc, Hab.
  - done.
  - fold (Number.lt (price a) (price c)). fold (Number.lt (price a) (price b)).
    rewrite Hab. destruct (Number.lt (price a) (price c)) eqn:Hac; [|done].
    rewrite (le_lt_trans (price b) (price a) (price c)) in Hbc;
      [done|by apply not_lt_le|done].
Qed.

Lemma fold_left_dearer_assoc rest : ∀ acc item,
  priced acc → priced item → Forall priced rest →
  fold_left dearer rest (dearer acc item)
    = dearer acc (fold_left dearer rest item).
Proof.
  induction rest as [|next rest IH]; intros acc item Hacc Hitem Hrest; [done|].
  apply Forall_cons in Hrest as [Hnext Hrest]. simpl.
  rewrite dearer_assoc by done.
  apply IH; [done|by apply dearer_priced|done].
Qed.

(** X15. The dearest product of a sequence cut in two parts is found from
    the dearest of each part: it is the one of the second part when that
    costs strictly more, and the one of the first part otherwise (prices
    that can be compared). *)
Theorem getMostExpensiveProduct_app (front back : list Product) (a b : Product) :
  Forall priced (front ++ back) →
  getMostExpensiveProduct front = Normal (Some a) →
  getMostExpensiveProduct back = Normal (Some b) →
  getMostExpensiveProduct (front ++ back)
    = Normal (Some (if Number.gt (price b) (price a) then b else a)).
Proof.
  intros Hall Hfront Hback.
  destruct front as [|f0 front]; [done|]. destruct back as [|b0 back]; [done|].
  rewrite getMostExpensiveProduct_cons in Hfront, Hback.
  injection Hfront as <-. injection Hback as <-.
  rewrite <- app_comm_cons, getMostExpensiveProduct_cons.
  rewrite fold_left_app. simpl.
  apply Forall_app in Hall as [Hf Hb].
  apply Forall_cons in Hb as [Hb0 Hb].
  rewrite fold_left_dearer_assoc; [done| |done|done].
  clear -Hf. apply Forall_cons in Hf as [Hf0 Hf]. revert f0 Hf0.
  induction Hf as [|x front Hx _ IH]; intros f0 Hf0; [done|].
  simpl. apply IH. by apply dearer_priced.
Qed.

Lemma getMostExpensiveProduct_app_witness :
  getMostExpensiveProduct
    ([mkProduct (js "A") (Number.of_Z 10); mkProduct (js "B") (Number.of_Z 4)]
     ++ [mkProduct (js "C") (Number.of_Z 10)])
  = Normal (Some (if Number.gt (price (mkProduct (js "C") (Number.of_Z 10)))
                       (price (mkProduct (js "A") (Number.of_Z 10)))
                  then mkProduct (js "C") (Number.of_Z 10)
                  else mkProduct (js "A") (Number.of_Z 10))).
Proof.
  apply (getMostExpensiveProduct_app
           [mkProduct (js "A") (Number.of_Z 10); mkProduct (js "B") (Number.of_Z 4)]
           [mkProduct (js "C") (Number.of_Z 10)]).
  - by repeat constructor.
  - reflexivity.
  - reflexivity.
Defined.

(** ** squareAsync among later calls *)

Lemma other_effect_refl b x :
  other_promises b (promises x) → other_effect b x x.
Proof.
  intros Hothers. exists (promises x), []. repeat split; try done.
  destruct x. unfold set_jobs, set_promises. simpl. by rewrite app_nil_r.
Qed.

Lemma settle_other b q outcome x :
  away b q → other_promises b (promises x) →
  other_effect b x (settle q outcome x).
Proof.
  intros [Hq Hq'] Hothers. unfold settle.
  destruct (promises x !! q) as [[[] rs]|] eqn:Hlook;
    try by apply other_effect_refl.
  exists (<[q := mkPromise outcome []]> (promises x)),
         (map (fun t => ReactionJob t outcome) rs).
  split; [done|]. split; [by rewrite length_insert|].
  split; [|split; [|split]].
  - intros i pr Hi Hpr. destruct (decide (q = i)) as [->|Hne].
    + rewrite list_lookup_insert_eq in Hpr by (by eapply lookup_lt_Some).
      injection Hpr as <-. constructor.
    + rewrite list_lookup_insert_ne in Hpr by done. by eapply Hothers.
  - by rewrite list_lookup_insert_ne.
  - by rewrite list_lookup_insert_ne.
  - apply Forall_fmap. apply (Hothers q _ (conj Hq Hq') Hlook).
Qed.

Lemma then_forward_other b p target x :
  away b p → away b target → other_promises b (promises x) →
  other_effect b x (then_forward p target x).
Proof.
  intros [Hp Hp'] Htarget Hothers. unfold then_forward.
  destruct (promises x !! p) as [[[] rs]|] eqn:Hlook;
    try by apply other_effect_refl.
  - exists (<[p := mkPromise Pending (rs ++ [target])]> (promises x)), [].
    split; [|split; [by rewrite length_insert|split; [|split; [|split]]]].
    + destruct x. unfold set_jobs, set_promises. simpl. by rewrite app_nil_r.
    + intros i pr Hi Hpr. destruct (decide (p = i)) as [->|Hne].
      * rewrite list_lookup_insert_eq in Hpr by (by eapply lookup_lt_Some).
        injection Hpr as <-. simpl. apply Forall_app. split.
        -- apply (Hothers i _ Hi Hlook).
        -- by constructor.
      * rewrite list_lookup_insert_ne in Hpr by done. by eapply Hothers.
    + by rewrite list_lookup_insert_ne.
    + by rewrite list_lookup_insert_ne.
    + constructor.
  - exists (promises x), [ReactionJob target (Fulfilled value)].
    repeat split; try done. by constructor.
  - exists (promises x), [ReactionJob target (Rejected reason)].
    repeat split; try done. by constructor.
Qed.

Lemma run_job_other b j x :
  other_job b j → other_promises b (promises x) →
  other_effect b x (run_job j x).
Proof.
  destruct j as [target thenable|target outcome]; simpl.
  - intros [Htarget Hthenable]. by apply then_forward_other.
  - intros Htarget. by apply settle_other.
Qed.

Lemma fire_other b tm x :
  other_timer b tm → other_promises b (promises x) →
  other_effect b x (fire tm x).
Proof.
  unfold other_timer, fire. destruct (callback tm) as [p n].
  intros Hp. by apply settle_other.
Qed.

Lemma Awaiting_other_effect b n d x y :
  Awaiting b n d x → other_effect b x y → Awaiting b n d y.
Proof.
  intros [Hothers Houter (rs & Hinner & Hrs & Hjob) Hjobs Htimers Htimer]
         (ps' & js' & -> & Hlen' & Hothers' & Hb & HSb & Hjs').
  split; simpl; try done.
  - by rewrite Hb.
  - exists rs. rewrite HSb. repeat split; try done.
    intros Hnil. apply elem_of_app. left. by apply Hjob.
  - apply Forall_app. split; [done|].
    eapply Forall_impl; [exact Hjs'|]. by left.
Qed.

Lemma Expired_other_effect b n d x y :
  Expired b n d x → other_effect b x y → Expired b n d y.
Proof.
  intros [Hothers Hinner Houter Hjobs Htimers]
         (ps' & js' & -> & Hlen' & Hothers' & Hb & HSb & Hjs').
  split; simpl; try done.
  - by rewrite HSb.
  - rewrite Hb. destruct Houter as [Hdone|[Hpending Hjob]].
    + by left.
    + right. split; [done|]. apply elem_of_app. by left.
  - apply Forall_app. split; [done|].
    eapply Forall_impl; [exact Hjs'|]. by left.
Qed.

Lemma the_job_not_other b : ¬ other_job b (the_job b).
Proof. intros [[? _] _]. done. Qed.

Lemma the_reaction_not_other b n : ¬ other_job b (the_reaction b n).
Proof. intros [? _]. done. Qed.

Lemma the_timer_not_other b n d : ¬ other_timer b (the_timer b n d).
Proof. unfold other_timer. simpl. intros [_ ?]. done. Qed.

Lemma Awaiting_step b n d x j rest :
  Awaiting b n d x → jobs x = j :: rest →
  Awaiting b n d (run_job j (set_jobs rest x)).
Proof.
  intros Hx Hjobs.
  destruct Hx as [Hothers Houter (rs & Hinner & Hrs & Hjob) Hall Htimers Htimer].
  rewrite Hjobs in Hall, Hjob. apply Forall_cons in Hall as [Hj Hrest].
  destruct Hj as [Hj| ->].
  - apply (Awaiting_other_effect b n d (set_jobs rest x)).
    + split; simpl; try done. exists rs. repeat split; try done.
      intros Hnil. specialize (Hjob Hnil).
      apply elem_of_cons in Hjob as [<-|Hin]; [|done].
      by apply the_job_not_other in Hj.
    + by apply run_job_other.
  - simpl. unfold then_forward. simpl. rewrite Hinner.
    pose proof (lookup_lt_Some _ _ _ Hinner) as Hlen.
    split; simpl; try done.
    + intros i pr [Hi Hi'] Hpr. rewrite list_lookup_insert_ne in Hpr by done.
      by eapply Hothers.
    + by rewrite list_lookup_insert_ne by lia.
    + exists (rs ++ [b]).
      rewrite list_lookup_insert_eq by done. repeat split.
      * apply Forall_app. split; [done|]. by constructor.
      * intros Hnil. by destruct rs.
Qed.

Lemma Expired_step b n d x j rest :
  Expired b n d x → jobs x = j :: rest →
  Expired b n d (run_job j (set_jobs rest x)).
Proof.
  intros Hx Hjobs.
  destruct Hx as [Hothers Hinner Houter Hall Htimers].
  rewrite Hjobs in Hall, Houter. apply Forall_cons in Hall as [Hj Hrest].
  destruct Hj as [Hj|[->| ->]].
  - apply (Expired_other_effect b n d (set_jobs rest x)).
    + split; simpl; try done.
      destruct Houter as [Hdone|[Hpending Hin]]; [by left|right].
      split; [done|].
      apply elem_of_cons in Hin as [<-|Hin]; [|done].
      by apply the_reaction_not_other in Hj.
    + by apply run_job_other.
  - simpl. unfold then_forward. simpl. rewrite Hinner. simpl.
    split; simpl; try done.
    + destruct Houter as [Hdone|[Hpending Hin]]; [by left|right].
      split; [done|]. apply elem_of_app. right. by apply list_elem_of_singleton.
    + apply Forall_app. split; [done|]. constructor; [|done]. by right; right.
  - simpl. unfold settle. simpl.
    destruct Houter as [Hdone|[Hpending Hin]].
    + rewrite Hdone. simpl. split; simpl; try done. by left.
    + rewrite Hpending.
      pose proof (lookup_lt_Some _ _ _ Hpending) as Hlen.
      split; simpl.
      * intros i pr [Hi Hi'] Hpr. rewrite list_lookup_insert_ne in Hpr by done.
        by eapply Hothers.
      * by rewrite list_lookup_insert_ne by lia.
      * left. by rewrite list_lookup_insert_eq by done.
      * by rewrite app_nil_r.
      * done.
Qed.

Lemma drain_Awaiting b n d fuel : ∀ x,
  Awaiting b n d x → Awaiting b n d (drain fuel x).
Proof.
  induction fuel as [|fuel IH]; intros x Hx; [by destruct (jobs x)|].
  simpl. destruct (jobs x) as [|j rest] eqn:Hjobs; [done|].
  apply IH. by apply Awaiting_step.
Qed.

Lemma drain_Expired b n d fuel : ∀ x,
  Expired b n d x → Expired b n d (drain fuel x).
Proof.
  induction fuel as [|fuel IH]; intros x Hx; [by destruct (jobs x)|].
  simpl. destruct (jobs x) as [|j rest] eqn:Hjobs; [done|].
  apply IH. by apply Expired_step.
Qed.

Lemma Awaiting_fire b n d x tm rest c :
  Awaiting b n d x → jobs x = [] → timers x ≡ₚ tm :: rest →
  let y := fire tm (set_timers rest (set_clock c x)) in
  (other_timer b tm ∧ Awaiting b n d y) ∨
  (tm = the_timer b n d ∧ Expired b n d y).
Proof.
  intros Hx Hjobs Hperm y.
  destruct Hx as [Hothers Houter (rs & Hinner & Hrs & Hjob) Hall Htimers Htimer].
  rewrite Hperm in Htimers, Htimer. apply Forall_cons in Htimers as [Htm Hrest].
  destruct Htm as [Htm| ->].
  - left. split; [done|].
    apply (Awaiting_other_effect b n d (set_timers rest (set_clock c x))).
    + split; simpl; try done.
      * by exists rs.
      * apply elem_of_cons in Htimer as [<-|Hin]; [|done].
        by apply the_timer_not_other in Htm.
    + by apply fire_other.
  - right. split; [done|]. subst y.
    unfold fire, the_timer, settle. simpl. rewrite Hinner.
    pose proof (lookup_lt_Some _ _ _ Hinner) as Hlen.
    assert (rs ≠ []) as Hne.
    { intros Hnil. specialize (Hjob Hnil). rewrite Hjobs in Hjob.
      by apply elem_of_nil in Hjob. }
    split; simpl.
    + intros i pr [Hi Hi'] Hpr. rewrite list_lookup_insert_ne in Hpr by done.
      by eapply Hothers.
    + by rewrite list_lookup_insert_eq by done.
    + right. rewrite list_lookup_insert_ne by lia. split; [done|].
      rewrite Hjobs. simpl. destruct rs as [|r rs]; [done|].
      apply Forall_cons in Hrs as [<- _]. simpl. by left.
    + rewrite Hjobs. simpl. apply Forall_fmap.
      eapply Forall_impl; [exact Hrs|]. simpl. intros r <-. by right; right.
    + done.
Qed.

Lemma Expired_fire b n d x tm rest c :
  Expired b n d x → timers x ≡ₚ tm :: rest →
  Expired b n d (fire tm (set_timers rest (set_clock c x))).
Proof.
  intros Hx Hperm.
  destruct Hx as [Hothers Hinner Houter Hall Htimers].
  rewrite Hperm in Htimers. apply Forall_cons in Htimers as [Htm Hrest].
  assert (Expired b n d (set_timers rest (set_clock c x))) as Hx' by done.
  destruct Htm as [Htm| ->].
  - eapply Expired_other_effect; [exact Hx'|]. by apply fire_other.
  - unfold fire, the_timer, settle. simpl. by rewrite Hinner.
Qed.

Lemma expire_Expired b n d t rounds : ∀ x,
  Expired b n d x → jobs x = [] →
  Expired b n d (expire rounds t x) ∧ jobs (expire rounds t x) = [].
Proof.
  induction rounds as [|rounds IH]; intros x Hx Hjobs; [done|].
  simpl. destruct (pop_earliest (timers x)) as [[tm rest]|] eqn:Hpop; [|done].
  destruct (due tm <=? t); [|done].
  apply pop_earliest_Some in Hpop as [Hperm _].
  apply IH; [|apply run_jobs_empties].
  apply drain_Expired. by apply Expired_fire.
Qed.

Lemma expire_Awaiting b n d t rounds : ∀ x,
  Awaiting b n d x → jobs x = [] → (length (timers x) ≤ rounds)%nat →
  let y := expire rounds t x in
  jobs y = [] ∧ (d ≤ t → Expired b n d y) ∧ (t < d → Awaiting b n d y).
Proof.
  induction rounds as [|rounds IH]; intros x Hx Hjobs Hrounds.
  - destruct Hx. destruct (timers x); [by apply elem_of_nil in awaiting_timer0|].
    simpl in Hrounds. lia.
  - simpl.
    destruct (pop_earliest (timers x)) as [[tm rest]|] eqn:Hpop.
    + apply pop_earliest_Some in Hpop as [Hperm Hmin].
      assert (due tm ≤ d) as Hdue.
      { rewrite Forall_forall in Hmin.
        apply (Hmin (the_timer b n d)). by destruct Hx. }
      destruct (Z.leb_spec (due tm) t) as [Hle|Hgt].
      * destruct (Awaiting_fire b n d x tm rest (Z.max (clock x) (due tm))
                    Hx Hjobs Hperm) as [[Htm Hy]|[-> Hy]].
        -- apply IH.
           ++ by apply drain_Awaiting.
           ++ apply run_jobs_empties.
           ++ unfold run_jobs. rewrite drain_timers, fire_timers. simpl.
              apply Permutation_length in Hperm. simpl in Hperm. lia.
        -- simpl in Hle.
           destruct (expire_Expired b n d t rounds
                       (run_jobs (fire (the_timer b n d) (set_timers rest
                          (set_clock (Z.max (clock x) (due (the_timer b n d))) x)))))
             as [Hfired Hempty].
           ++ by apply drain_Expired.
           ++ apply run_jobs_empties.
           ++ split; [done|]. split; [done|]. intros Hlt. lia.
      * split; [done|]. split; [intros Hle; lia|done].
    + apply pop_earliest_None in Hpop. destruct Hx.
      rewrite Hpop in awaiting_timer0. by apply elem_of_nil in awaiting_timer0.
Qed.

(** *** The clock *)

Lemma settle_clock p outcome w : clock (settle p outcome w) = clock w.
Proof. unfold settle. by destruct (promises w !! p) as [[[] rs]|]. Qed.

Lemma then_forward_clock p target w :
  clock (then_forward p target w) = clock w.
Proof. unfold then_forward. by destruct (promises w !! p) as [[[] rs]|]. Qed.

Lemma drain_clock fuel : ∀ w, clock (drain fuel w) = clock w.
Proof.
  induction fuel as [|fuel IH]; intros w; [by destruct (jobs w)|].
  simpl. destruct (jobs w) as [|j rest]; [done|].
  rewrite IH. destruct j; simpl.
  - by rewrite then_forward_clock.
  - by rewrite settle_clock.
Qed.

Lemma run_jobs_clock w : clock (run_jobs w) = clock w.
Proof. apply drain_clock. Qed.

Lemma fire_clock tm w : clock (fire tm w) = clock w.
Proof. unfold fire. destruct (callback tm). apply settle_clock. Qed.

Lemma expire_clock t rounds : ∀ w,
  clock w ≤ clock (expire rounds t w) ≤ Z.max (clock w) t.
Proof.
  induction rounds as [|rounds IH]; intros w; simpl; [lia|].
  destruct (pop_earliest (timers w)) as [[tm rest]|]; [|lia].
  destruct (Z.leb_spec (due tm) t) as [Hle|Hgt]; [|lia].
  specialize (IH (run_jobs (fire tm (set_timers rest
                    (set_clock (Z.max (clock w) (due tm)) w))))).
  rewrite run_jobs_clock, fire_clock in IH. simpl in IH. lia.
Qed.

(** Time never runs backwards: advancing to [t] leaves the clock at [t], or
    where it was when that is later. *)
Lemma advance_clock t w : clock (advance t w) = Z.max (clock w) t.
Proof.
  unfold advance. simpl.
  pose proof (expire_clock t (length (timers (run_jobs w))) (run_jobs w)) as H.
  rewrite run_jobs_clock in H. lia.
Qed.

(** *** What a call does to the world it is made in *)

Lemma squareAsync_negative n w :
  Number.lt n (Number.of_Z 0) = true →
  squareAsync n w =
    (Normal (length (promises w)),
     set_promises
       (promises w ++
          [mkPromise (Rejected (Error (js "Negative number not allowed"))) []])
       w).
Proof.
  intros Hlt. unfold squareAsync, async_call, squareAsync_body.
  destruct (new_promise w) as [p w0] eqn:Hnew. rewrite Hlt.
  injection Hnew as <- <-. f_equal. apply (settle_new_promise w).
Qed.

Lemma squareAsync_old_promises n w q :
  (q < length (promises w))%nat →
  promises (snd (squareAsync n w)) !! q = promises w !! q.
Proof.
  intros Hq. destruct (Number.lt n (Number.of_Z 0)) eqn:Hlt.
  - rewrite squareAsync_negative by done. simpl. by rewrite lookup_app_l.
  - rewrite squareAsync_not_negative by done. simpl. by rewrite lookup_app_l.
Qed.

Lemma squareAsync_clock n w : clock (snd (squareAsync n w)) = clock w.
Proof.
  destruct (Number.lt n (Number.of_Z 0)) eqn:Hlt.
  - by rewrite squareAsync_negative.
  - by rewrite squareAsync_not_negative.
Qed.

Lemma other_promises_app b ps new :
  other_promises b ps → Forall (fun pr => reactions pr = []) new →
  other_promises b (ps ++ new).
Proof.
  intros Hps Hnew i pr Hi Hpr.
  apply lookup_app_Some in Hpr as [Hpr|[_ Hpr]]; [by eapply Hps|].
  rewrite Forall_forall in Hnew.
  rewrite (Hnew pr) by (by eapply list_elem_of_lookup_2). constructor.
Qed.

Lemma squareAsync_keeps_Awaiting b n d m x :
  Awaiting b n d x → Awaiting b n d (snd (squareAsync m x)).
Proof.
  intros [Hothers Houter (rs & Hinner & Hrs & Hjob) Hjobs Htimers Htimer].
  pose proof (lookup_lt_Some _ _ _ Hinner) as Hlen.
  destruct (Number.lt m (Number.of_Z 0)) eqn:Hlt.
  - rewrite squareAsync_negative by done. split; simpl; try done.
    + apply other_promises_app; [done|]. by repeat constructor.
    + by apply lookup_app_l_Some.
    + exists rs. split; [by apply lookup_app_l_Some|done].
  - rewrite squareAsync_not_negative by done. split; simpl.
    + apply other_promises_app; [done|]. by repeat constructor.
    + by apply lookup_app_l_Some.
    + exists rs. split; [by apply lookup_app_l_Some|]. split; [done|].
      intros Hnil. apply elem_of_app. left. by apply Hjob.
    + apply Forall_app. split; [done|]. constructor; [|done].
      left. unfold the_job, other_job, away. lia.
    + apply Forall_app. split; [done|]. constructor; [|done].
      left. unfold the_timer, other_timer, away. simpl. lia.
    + apply elem_of_app. by left.
Qed.

Lemma squareAsync_Awaiting n w :
  Number.lt n (Number.of_Z 0) = false → well_formed w →
  Awaiting (length (promises w)) n (clock w + 1000) (snd (squareAsync n w)).
Proof.
  intros Hlt [Hps Hjs Hts]. rewrite squareAsync_not_negative by done.
  split; simpl.
  - intros i pr [Hi Hi'] Hpr.
    apply lookup_app_Some in Hpr as [Hpr|[Hge Hpr]].
    + pose proof (lookup_lt_Some _ _ _ Hpr) as Hlen.
      eapply Forall_impl; [by eapply Hps|]. unfold away. simpl. lia.
    + destruct (i - length (promises w))%nat as [|[|k]] eqn:Hk; [lia|lia|done].
  - by rewrite lookup_app_r, Nat.sub_diag.
  - exists []. rewrite lookup_app_r by lia.
    replace (S (length (promises w)) - length (promises w))%nat with 1%nat by lia.
    repeat split; [done|]. intros _. apply elem_of_app. right.
    by apply list_elem_of_singleton.
  - apply Forall_app. split.
    + eapply Forall_impl; [exact Hjs|].
      intros [] ?; left; simpl in *; unfold away; lia.
    + constructor; [by right|done].
  - apply Forall_app. split.
    + eapply Forall_impl; [exact Hts|]. intros tm Htm. left.
      unfold other_timer, older_timer, away in *. destruct (callback tm). lia.
    + constructor; [by right|done].
  - apply elem_of_app. right. by apply list_elem_of_singleton.
Qed.

(** *** The promise of a call, whatever happens next *)

Lemma Tracked_call b n d m x :
  Tracked b n d x → Tracked b n d (snd (squareAsync m x)).
Proof.
  intros [[Hclock Hx]|[Hclock Hstate]].
  - left. rewrite squareAsync_clock. split; [done|].
    by apply squareAsync_keeps_Awaiting.
  - right. rewrite squareAsync_clock. split; [done|].
    unfold state_of in *.
    destruct (promises x !! b) eqn:Hb; [|done].
    rewrite squareAsync_old_promises by (by eapply lookup_lt_Some).
    by rewrite Hb.
Qed.

Lemma Tracked_advance b n d t x :
  Tracked b n d x → Tracked b n d (advance t x).
Proof.
  intros [[Hclock Hx]|[Hclock Hstate]].
  - destruct (expire_Awaiting b n d t (length (timers (run_jobs x))) (run_jobs x))
      as (Hempty & Hlate & Hearly).
    + by apply drain_Awaiting.
    + apply run_jobs_empties.
    + done.
    + destruct (Z.lt_ge_cases t d) as [Hlt|Hge].
      * left. rewrite advance_clock. split; [lia|].
        destruct (Hearly Hlt). by split.
      * right. rewrite advance_clock. split; [lia|].
        destruct (Hlate Hge) as [_ _ [Hdone|[_ Hin]] _ _].
        -- unfold advance, state_of. simpl. by rewrite Hdone.
        -- rewrite Hempty in Hin. by apply elem_of_nil in Hin.
  - right. rewrite advance_clock. split; [lia|].
    by apply advance_settled.
Qed.

Lemma Tracked_continues b n d w0 x :
  Tracked b n d w0 → continues w0 x → Tracked b n d x.
Proof.
  intros H0. induction 1 as [|m x _ IH|t x _ IH]; [done| |].
  - by apply Tracked_call.
  - by apply Tracked_advance.
Qed.

Lemma Tracked_state b n d x :
  Tracked b n d x →
  state_of b x = Some (if clock x <? d then Pending else the_value n).
Proof.
  intros [[Hclock [_ Houter _ _ _ _]]|[Hclock Hstate]].
  - destruct (Z.ltb_spec (clock x) d); [|lia].
    unfold state_of. by rewrite Houter.
  - by destruct (Z.ltb_spec (clock x) d); [lia|].
Qed.

Lemma squareAsync_Tracked n w x :
  Number.lt n (Number.of_Z 0) = false → well_formed w →
  continues (snd (squareAsync n w)) x →
  Tracked (length (promises w)) n (clock w + 1000) x.
Proof.
  intros Hlt Hw. apply Tracked_continues. left.
  rewrite squareAsync_clock. split; [lia|]. by apply squareAsync_Awaiting.
Qed.

(** X16. Calls are independent. When [squareAsync n] is called with a
    number that is not below 0, its promise follows the clock alone,
    whatever further calls are made and however time is advanced
    afterwards: it is pending while the clock is less than 1000 past the
    call, and fulfilled with [n * n] from then on. *)
Theorem squareAsync_among_later_calls (n : number) (w x : World) :
  Number.lt n (Number.of_Z 0) = false → well_formed w →
  continues (snd (squareAsync n w)) x →
  ∃ p, fst (squareAsync n w) = Normal p ∧
       state_of p x
         = Some (if clock x <? clock w + 1000 then Pending
                 else Fulfilled (Number.mul n n)).
Proof.
  intros Hlt Hw Hx. exists (length (promises w)). split.
  - by rewrite squareAsync_not_negative.
  - apply (Tracked_state _ n). by apply squareAsync_Tracked.
Qed.

Lemma squareAsync_among_later_calls_witness :
  ∃ p, fst (squareAsync (Number.of_Z 3) (fresh 0)) = Normal p ∧
       state_of p
         (advance 1200
            (snd (squareAsync (Number.of_Z 4)
                    (advance 700 (snd (squareAsync (Number.of_Z 3) (fresh 0)))))))
         = Some (if clock
                      (advance 1200
                         (snd (squareAsync (Number.of_Z 4)
                                 (advance 700
                                    (snd (squareAsync (Number.of_Z 3) (fresh 0)))))))
                    <? clock (fresh 0) + 1000
                 then Pending
                 else Fulfilled (Number.mul (Number.of_Z 3) (Number.of_Z 3))).
Proof.
  apply (squareAsync_among_later_calls (Number.of_Z 3) (fresh 0)).
  - reflexivity.
  - split; simpl; [intros i pr Hi; lia|constructor|constructor].
  - apply continues_advance, continues_call, continues_advance, continues_here.
Defined.

(** X17. NaN is not below 0, so [squareAsync] does not reject it: the
    promise of [squareAsync(NaN)] waits for the delay like any other and is
    then fulfilled with NaN. *)
Theorem squareAsync_NaN (w x : World) :
  well_formed w →
  continues (snd (squareAsync Number.NaN w)) x →
  ∃ p, fst (squareAsync Number.NaN w) = Normal p ∧
       state_of p x
         = Some (if clock x <? clock w + 1000 then Pending
                 else Fulfilled Number.NaN).
Proof.
  intros Hw Hx. exists (length (promises w)). split; [done|].
  apply (Tracked_state _ Number.NaN). by apply squareAsync_Tracked.
Qed.

Lemma squareAsync_NaN_witness :
  ∃ p, fst (squareAsync Number.NaN (fresh 5)) = Normal p ∧
       state_of p (advance 2000 (snd (squareAsync Number.NaN (fresh 5))))
         = Some (if clock (advance 2000 (snd (squareAsync Number.NaN (fresh 5))))
                    <? clock (fresh 5) + 1000
                 then Pending
                 else Fulfilled Number.NaN).
Proof.
  apply (squareAsync_NaN (fresh 5)).
  - split; simpl; [intros i pr Hi; lia|constructor|constructor].
  - apply continues_advance, continues_here.
Defined.

(** X18. For [n >= 0] the value the promise is fulfilled with is never
    negative and never NaN, even where [n * n] is rounded or overflows to
    Infinity. *)
Theorem squareAsync_value_not_negative (n : number) (w x : World)
    (v : number) :
  Number.ge n (Number.of_Z 0) = true → well_formed w →
  continues (snd (squareAsync n w)) x →
  state_of (length (promises w)) x = Some (Fulfilled v) →
  Number.ge v (Number.of_Z 0) = true ∧ Number.is_nan v = false.
Proof.
  intros Hge Hw Hx Hv.
  pose proof (ge_0_not_lt_0 n Hge) as Hlt.
  pose proof (Tracked_state _ n _ _ (squareAsync_Tracked n w x Hlt Hw Hx)) as Hs.
  rewrite Hv in Hs. destruct (clock x <? clock w + 1000); [done|].
  injection Hs as ->.
  assert (Number.comparable n) as Hn by (by destruct n).
  pose proof (square_nonneg n Hn) as Hsq. split; [done|].
  by destruct (Number.mul n n).
Qed.

Lemma squareAsync_value_not_negative_witness :
  Number.ge (Number.mul (Number.of_Z 7) (Number.of_Z 7)) (Number.of_Z 0) = true ∧
  Number.is_nan (Number.mul (Number.of_Z 7) (Number.of_Z 7)) = false.
Proof.
  apply (squareAsync_value_not_negative (Number.of_Z 7) (fresh 0)
           (advance 1000 (snd (squareAsync (Number.of_Z 7) (fresh 0))))).
  - reflexivity.
  - split; simpl; [intros i pr Hi; lia|constructor|constructor].
  - apply continues_advance, continues_here.
  - reflexivity.
Defined.

(** X19. A call never fails synchronously and never disturbs what is
    there: for every number, NaN included, it completes normally with a
    new promise; the clock, the promises that exist, the timers and the
    jobs that are queued stay as they are, new ones come after them. *)
Theorem squareAsync_frame (n : number) (w : World) :
  ∃ w',
    squareAsync n w = (Normal (length (promises w)), w') ∧
    clock w' = clock w ∧
    (∀ q, (q < length (promises w))%nat → promises w' !! q = promises w !! q) ∧
    timers w `prefix_of` timers w' ∧
    jobs w `prefix_of` jobs w'.
Proof.
  destruct (Number.lt n (Number.of_Z 0)) eqn:Hlt.
  - rewrite squareAsync_negative by done. eexists. split; [done|].
    simpl. repeat split; try done.
    intros q Hq. by rewrite lookup_app_l.
  - rewrite squareAsync_not_negative by done. eexists. split; [done|].
    simpl. repeat split; try done.
    + intros q Hq. by rewrite lookup_app_l.
    + by apply prefix_app_r.
    + by apply prefix_app_r.
Qed.

(** X20. The promise returned is rejected on return exactly when [n < 0]
    and is pending otherwise; a timer is registered exactly in the second
    case, one per call. *)
Theorem squareAsync_rejects_iff_negative (n : number) (w : World) :
  state_of (length (promises w)) (snd (squareAsync n w))
    = Some (if Number.lt n (Number.of_Z 0)
            then Rejected (Error (js "Negative number not allowed"))
            else Pending) ∧
  length (timers (snd (squareAsync n w)))
    = (length (timers w) + (if Number.lt n (Number.of_Z 0) then 0 else 1))%nat.
Proof.
  destruct (Number.lt n (Number.of_Z 0)) eqn:Hlt.
  - rewrite squareAsync_negative by done. unfold state_of. simpl.
    rewrite list_lookup_middle by done. split; [done|lia].
  - rewrite squareAsync_not_negative by done. unfold state_of. simpl.
    rewrite lookup_app_r, Nat.sub_diag by done.
    split; [done|]. rewrite length_app. simpl. lia.
Qed.
